(** * Request-validation middleware (zod + express): model and properties

  The development embeds [src/index.ts] and the error classes of
  [src/errors/]: the four combined middleware factories
  ([processRequest], [processRequestAsync], [validateRequest],
  [validateRequestAsync]), the single-slot factories that delegate to
  them, and the built-in responder [sendErrors].

  A middleware is JavaScript code with effects: it reads and overwrites
  fields of the request object, writes to the response object, pushes to
  a local array, calls the schema engine, calls the continuation and may
  throw.  These effects are threaded explicitly through a small
  state-and-exception monad; every call that leaves the layer is also
  appended to a trace, so that "is invoked" and "is not evaluated" are
  statements about that trace. *)

From Stdlib Require Import List String Bool ZArith Arith Lia.
Import ListNotations.

Set Implicit Arguments.
Set Warnings "-notation-for-abbreviation,-register-all".

(** ** Data model *)

(** The three request facets; also the literal type
  ["Query" | "Params" | "Body"] of [ErrorListItem.type]. *)
Inductive ErrorType := Params | Query | Body.

Definition type_name (t : ErrorType) : string :=
match t with
| Params => "Params"%string
| Query => "Query"%string
| Body => "Body"%string
end.

Definition slot_eqb (a b : ErrorType) : bool :=
  match a, b with
  | Params, Params | Query, Query | Body, Body => true
  | _, _ => false
  end.

Section DataModel.

(** [Value] stands for JavaScript values held by the request fields
    (express types them [any]); [ZodError] is zod's native validation
    error.  Both are opaque to the middleware. *)
Context {Value ZodError : Type}.

(** [type ErrorListItem = { type: ...; errors: ZodError<any> }] *)
Record ErrorListItem := { type : ErrorType; errors : ZodError }.

(** zod's [SafeParseReturnType]: [{success: true, data}] or
    [{success: false, error}]. *)
Inductive SafeParseReturnType :=
| SafeParseSuccess (data : Value)
| SafeParseError (error : ZodError).

(** A promise is represented by the value it is fulfilled with:
    [safeParseAsync] reports a validation failure in that value, as
    [safeParse] does in its result. *)
Definition Promise (A : Type) : Type := A.

(** The part of a zod schema the middleware uses. *)
Record ZodSchema := {
  safeParse : Value -> SafeParseReturnType;
  safeParseAsync : Value -> Promise SafeParseReturnType
}.

(** [RequestValidation] / [RequestProcessing]: up to three schemas. *)
Record RequestSchemas := {
  params : option ZodSchema;
  query : option ZodSchema;
  body : option ZodSchema
}.

(** The mutable fields of the express request the layer touches. *)
Record Request := { req_params : Value; req_query : Value; req_body : Value }.

(** What [res.send] was given. *)
Inductive Payload :=
| ErrorsPayload (items : list ErrorListItem)
| OtherPayload (v : Value).

(** The express response: the status code and what was sent, if anything. *)
Record Response := { statusCode : Z; sent : option Payload }.

(** [type Options]; an absent field is [None].  The [sendErrors] callback
    is represented by what it does to the response, given the error list. *)
Record Options := {
  passErrorToNext : option bool;
  throwErrors : option bool;
  custom_sendErrors : option (list ErrorListItem -> Response -> Response)
}.

(** The default [options = {}]. *)
Definition empty_options : Options :=
  {| passErrorToNext := None; throwErrors := None; custom_sendErrors := None |}.

Definition default_arg (options : option Options) : Options :=
  match options with
  | Some o => o
  | None => empty_options
  end.

(** JavaScript truthiness of an optional boolean. *)
Definition truthy (flag : option bool) : bool :=
  match flag with
  | Some true => true
  | _ => false
  end.

(** The error classes of [src/errors]; each carries [zodError]. *)
Inductive Exception :=
| InvalidParamsError (error : ZodError)
| InvalidQueryError (error : ZodError)
| InvalidBodyError (error : ZodError).

Definition zodError (e : Exception) : ZodError :=
  match e with
  | InvalidParamsError error => error
  | InvalidQueryError error => error
  | InvalidBodyError error => error
  end.

Definition message (e : Exception) : string :=
  match e with
  | InvalidParamsError _ => "Invalid params"%string
  | InvalidQueryError _ => "Invalid query params"%string
  | InvalidBodyError _ => "Invalid data"%string
  end.

(** ** Effects *)

(** Calls that leave the layer, in the order they happen. *)
Inductive Event :=
| CallSafeParse (slot : ErrorType) (input : Value)
| CallSafeParseAsync (slot : ErrorType) (input : Value)
| CallNext (arg : option (list ErrorListItem))
| CallSendErrors (errs : list ErrorListItem)
| CallOptionsSendErrors (errs : list ErrorListItem).

(** One invocation of a middleware: the request and response objects,
    the local array [errors], and the trace. *)
Record State := {
  st_req : Request;
  st_res : Response;
  st_errors : list ErrorListItem;
  st_trace : list Event
}.

Inductive Result (A : Type) :=
| Done (a : A) (s : State)
| Raised (e : Exception) (s : State).

Arguments Done {A} a s.
Arguments Raised {A} e s.

Definition M (A : Type) : Type := State -> Result A.

Definition ret {A} (a : A) : M A := fun s => Done a s.

Definition bind {A B} (m : M A) (k : A -> M B) : M B :=
  fun s =>
    match m s with
    | Done a s' => k a s'
    | Raised e s' => Raised e s'
    end.

Definition throw {A} (e : Exception) : M A := fun s => Raised e s.

Definition gets {A} (f : State -> A) : M A := fun s => Done (f s) s.

Definition modify (f : State -> State) : M unit := fun s => Done tt (f s).

Definition emit (ev : Event) : M unit :=
  modify (fun s =>
    {| st_req := st_req s; st_res := st_res s; st_errors := st_errors s;
       st_trace := st_trace s ++ [ev] |}).

Definition set_req (f : Request -> Request) : M unit :=
  modify (fun s =>
    {| st_req := f (st_req s); st_res := st_res s; st_errors := st_errors s;
       st_trace := st_trace s |}).

Definition set_res (f : Response -> Response) : M unit :=
  modify (fun s =>
    {| st_req := st_req s; st_res := f (st_res s); st_errors := st_errors s;
       st_trace := st_trace s |}).

(** [errors.push(item)] *)
Definition push (item : ErrorListItem) : M unit :=
  modify (fun s =>
    {| st_req := st_req s; st_res := st_res s; st_errors := st_errors s ++ [item];
       st_trace := st_trace s |}).

(** [if (x) { ... }] on an optional schema. *)
Definition when_defined {A} (x : option A) (k : A -> M unit) : M unit :=
  match x with
  | Some a => k a
  | None => ret tt
  end.

End DataModel.

Arguments ErrorListItem : clear implicits.
Arguments SafeParseReturnType : clear implicits.
Arguments ZodSchema : clear implicits.
Arguments RequestSchemas : clear implicits.
Arguments Request : clear implicits.
Arguments Payload : clear implicits.
Arguments Response : clear implicits.
Arguments Options : clear implicits.
Arguments Exception : clear implicits.
Arguments Event : clear implicits.
Arguments State : clear implicits.
Arguments Result : clear implicits.
Arguments M : clear implicits.

Arguments Done {Value ZodError A} a s.
Arguments Raised {Value ZodError A} e s.

Declare Scope mw_scope.
Delimit Scope mw_scope with mw.
Notation "x <- m ;; k" := (bind m (fun x => k))
  (at level 61, m at next level, right associativity) : mw_scope.
Notation "m ;; k" := (bind m (fun _ => k))
  (at level 61, right associativity) : mw_scope.

(** ** The middleware of [src/index.ts] *)

Section Middleware.

Context {Value ZodError : Type}.

Local Notation ErrorListItem := (ErrorListItem ZodError).
Local Notation SafeParseReturnType := (SafeParseReturnType Value ZodError).
Local Notation ZodSchema := (ZodSchema Value ZodError).
Local Notation RequestSchemas := (RequestSchemas Value ZodError).
Local Notation Request := (Request Value).
Local Notation Response := (Response Value ZodError).
Local Notation Options := (Options Value ZodError).
Local Notation Exception := (Exception ZodError).
Local Notation State := (State Value ZodError).
Local Notation M := (M Value ZodError).

Local Open Scope mw_scope.

(** How a handler invocation ends: a plain function returns or throws;
    an [async] function returns a promise that is fulfilled or, when the
    body throws, rejected with what was thrown. *)
Inductive Completion :=
| Returned
| Threw (e : Exception)
| Fulfilled
| Rejected (e : Exception).

(** An express [RequestHandler], applied to the request and response
    objects; the continuation [next] is opaque and its calls are traced. *)
Definition RequestHandler : Type := Request -> Response -> Completion * State.

Definition initial (req : Request) (res : Response) : State :=
  {| st_req := req; st_res := res; st_errors := []; st_trace := [] |}.

(** [(req, res, next) => { ... }] *)
Definition handler (code : M unit) : RequestHandler :=
  fun req res =>
    match code (initial req res) with
    | Done _ s => (Returned, s)
    | Raised e s => (Threw e, s)
    end.

(** [async (req, res, next) => { ... }] *)
Definition async_handler (code : M unit) : RequestHandler :=
  fun req res =>
    match code (initial req res) with
    | Done _ s => (Fulfilled, s)
    | Raised e s => (Rejected e, s)
    end.

(** [await p] *)
Definition await {A} (p : Promise A) : M A := ret p.

(** [schema.safeParse(input)] for the schema of [slot]. *)
Definition call_safeParse (slot : ErrorType) (schema : ZodSchema) (input : Value)
  : M SafeParseReturnType :=
  emit (CallSafeParse slot input) ;;
  ret (safeParse schema input).

(** [schema.safeParseAsync(input)] for the schema of [slot]. *)
Definition call_safeParseAsync (slot : ErrorType) (schema : ZodSchema) (input : Value)
  : M (Promise SafeParseReturnType) :=
  emit (CallSafeParseAsync slot input) ;;
  ret (safeParseAsync schema input).

(** [res.status(code)] and [res.send(payload)] *)
Definition status (code : Z) (res : Response) : Response :=
  {| statusCode := code; sent := sent res |}.

Definition send (payload : Payload Value ZodError) (res : Response) : Response :=
  {| statusCode := statusCode res; sent := Some payload |}.

(** [next()] and [next(errors)] *)
Definition next (arg : option (list ErrorListItem)) : M unit :=
  emit (CallNext arg).

(** The exported default responder:
    [res.status(400).send(errors.map(e => ({type: e.type, errors: e.errors})))] *)
Definition sendErrors (errs : list ErrorListItem) : M unit :=
  emit (CallSendErrors errs) ;;
  set_res (fun res =>
    send (ErrorsPayload
            (map (fun error => {| type := type error; errors := errors error |}) errs))
         (status 400 res)).

(** A call of the callback given as [options.sendErrors]. *)
Definition call_options_sendErrors
    (callback : list ErrorListItem -> Response -> Response)
    (errs : list ErrorListItem) : M unit :=
  emit (CallOptionsSendErrors errs) ;;
  set_res (callback errs).

Definition set_params (data : Value) : M unit :=
  set_req (fun req =>
    {| req_params := data; req_query := req_query req; req_body := req_body req |}).

Definition set_query (data : Value) : M unit :=
  set_req (fun req =>
    {| req_params := req_params req; req_query := data; req_body := req_body req |}).

Definition set_body (data : Value) : M unit :=
  set_req (fun req =>
    {| req_params := req_params req; req_query := req_query req; req_body := data |}).

Definition processRequest (schemas : RequestSchemas) (options : option Options)
  : RequestHandler :=
  let options := default_arg options in
  handler (
    when_defined (params schemas) (fun schema =>
      req <- gets (@st_req Value ZodError) ;;
      parsed <- call_safeParse Params schema (req_params req) ;;
      match parsed with
      | SafeParseSuccess data => set_params data
      | SafeParseError error =>
          if truthy (throwErrors options) then throw (InvalidParamsError error)
          else push {| type := Params; errors := error |}
      end) ;;
    when_defined (query schemas) (fun schema =>
      req <- gets (@st_req Value ZodError) ;;
      parsed <- call_safeParse Query schema (req_query req) ;;
      match parsed with
      | SafeParseSuccess data => set_query data
      | SafeParseError error =>
          if truthy (throwErrors options) then throw (InvalidQueryError error)
          else push {| type := Query; errors := error |}
      end) ;;
    when_defined (body schemas) (fun schema =>
      req <- gets (@st_req Value ZodError) ;;
      parsed <- call_safeParse Body schema (req_body req) ;;
      match parsed with
      | SafeParseSuccess data => set_body data
      | SafeParseError error =>
          if truthy (throwErrors options) then throw (InvalidBodyError error)
          else push {| type := Body; errors := error |}
      end) ;;
    errs <- gets (@st_errors Value ZodError) ;;
    if (0 <? List.length errs) && truthy (passErrorToNext options) then next (Some errs)
    else if 0 <? List.length errs then
      match custom_sendErrors options with
      | Some _ => sendErrors errs
      | None => sendErrors errs
      end
    else next None).

Definition processRequestAsync (schemas : RequestSchemas) (options : option Options)
  : RequestHandler :=
  let options := default_arg options in
  async_handler (
    when_defined (params schemas) (fun schema =>
      req <- gets (@st_req Value ZodError) ;;
      promise <- call_safeParseAsync Params schema (req_params req) ;;
      parsed <- await promise ;;
      match parsed with
      | SafeParseSuccess data => set_params data
      | SafeParseError error =>
          if truthy (throwErrors options) then throw (InvalidParamsError error)
          else push {| type := Params; errors := error |}
      end) ;;
    when_defined (query schemas) (fun schema =>
      req <- gets (@st_req Value ZodError) ;;
      promise <- call_safeParseAsync Query schema (req_query req) ;;
      parsed <- await promise ;;
      match parsed with
      | SafeParseSuccess data => set_query data
      | SafeParseError error =>
          if truthy (throwErrors options) then throw (InvalidQueryError error)
          else push {| type := Query; errors := error |}
      end) ;;
    when_defined (body schemas) (fun schema =>
      req <- gets (@st_req Value ZodError) ;;
      promise <- call_safeParseAsync Body schema (req_body req) ;;
      parsed <- await promise ;;
      match parsed with
      | SafeParseSuccess data => set_body data
      | SafeParseError error =>
          if truthy (throwErrors options) then throw (InvalidBodyError error)
          else push {| type := Body; errors := error |}
      end) ;;
    errs <- gets (@st_errors Value ZodError) ;;
    if (0 <? List.length errs) && truthy (passErrorToNext options) then next (Some errs)
    else if 0 <? List.length errs then
      match custom_sendErrors options with
      | Some _ => sendErrors errs
      | None => sendErrors errs
      end
    else next None).

Definition validateRequest (schemas : RequestSchemas) (options : option Options)
  : RequestHandler :=
  let options := default_arg options in
  handler (
    when_defined (params schemas) (fun params =>
      req <- gets (@st_req Value ZodError) ;;
      parsed <- call_safeParse Params params (req_params req) ;;
      match parsed with
      | SafeParseSuccess _ => ret tt
      | SafeParseError error =>
          (if truthy (throwErrors options) then throw (InvalidParamsError error)
           else ret tt) ;;
          push {| type := Params; errors := error |}
      end) ;;
    when_defined (query schemas) (fun query =>
      req <- gets (@st_req Value ZodError) ;;
      parsed <- call_safeParse Query query (req_query req) ;;
      match parsed with
      | SafeParseSuccess _ => ret tt
      | SafeParseError error =>
          (if truthy (throwErrors options) then throw (InvalidQueryError error)
           else ret tt) ;;
          push {| type := Query; errors := error |}
      end) ;;
    when_defined (body schemas) (fun body =>
      req <- gets (@st_req Value ZodError) ;;
      parsed <- call_safeParse Body body (req_body req) ;;
      match parsed with
      | SafeParseSuccess _ => ret tt
      | SafeParseError error =>
          (if truthy (throwErrors options) then throw (InvalidBodyError error)
           else ret tt) ;;
          push {| type := Body; errors := error |}
      end) ;;
    errs <- gets (@st_errors Value ZodError) ;;
    if (0 <? List.length errs) && truthy (passErrorToNext options) then next (Some errs)
    else if 0 <? List.length errs then
      match custom_sendErrors options with
      | Some callback => call_options_sendErrors callback errs
      | None => sendErrors errs
      end
    else next None).

Definition validateRequestAsync (schemas : RequestSchemas) (options : option Options)
  : RequestHandler :=
  let options := default_arg options in
  async_handler (
    when_defined (params schemas) (fun params =>
      req <- gets (@st_req Value ZodError) ;;
      promise <- call_safeParseAsync Params params (req_params req) ;;
      parsed <- await promise ;;
      match parsed with
      | SafeParseSuccess _ => ret tt
      | SafeParseError error =>
          (if truthy (throwErrors options) then throw (InvalidParamsError error)
           else ret tt) ;;
          push {| type := Params; errors := error |}
      end) ;;
    when_defined (query schemas) (fun query =>
      req <- gets (@st_req Value ZodError) ;;
      promise <- call_safeParseAsync Query query (req_query req) ;;
      parsed <- await promise ;;
      match parsed with
      | SafeParseSuccess _ => ret tt
      | SafeParseError error =>
          (if truthy (throwErrors options) then throw (InvalidQueryError error)
           else ret tt) ;;
          push {| type := Query; errors := error |}
      end) ;;
    when_defined (body schemas) (fun body =>
      req <- gets (@st_req Value ZodError) ;;
      promise <- call_safeParseAsync Body body (req_body req) ;;
      parsed <- await promise ;;
      match parsed with
      | SafeParseSuccess _ => ret tt
      | SafeParseError error =>
          (if truthy (throwErrors options) then throw (InvalidBodyError error)
           else ret tt) ;;
          push {| type := Body; errors := error |}
      end) ;;
    errs <- gets (@st_errors Value ZodError) ;;
    if (0 <? List.length errs) && truthy (passErrorToNext options) then next (Some errs)
    else if 0 <? List.length errs then
      match custom_sendErrors options with
      | Some callback => call_options_sendErrors callback errs
      | None => sendErrors errs
      end
    else next None).

(** *** Single-slot entry points *)

Definition processRequestBody (effectsSchema : ZodSchema) (options : option Options)
  : RequestHandler :=
  processRequest {| params := None; query := None; body := Some effectsSchema |} options.

Definition processRequestBodyAsync (effectsSchema : ZodSchema) (options : option Options)
  : RequestHandler :=
  processRequestAsync {| params := None; query := None; body := Some effectsSchema |} options.

Definition processRequestParams (effectsSchema : ZodSchema) (options : option Options)
  : RequestHandler :=
  processRequest {| params := Some effectsSchema; query := None; body := None |} options.

Definition processRequestParamsAsync (effectsSchema : ZodSchema) (options : option Options)
  : RequestHandler :=
  processRequestAsync {| params := Some effectsSchema; query := None; body := None |} options.

Definition processRequestQuery (effectsSchema : ZodSchema) (options : option Options)
  : RequestHandler :=
  processRequest {| params := None; query := Some effectsSchema; body := None |} options.

Definition processRequestQueryAsync (effectsSchema : ZodSchema) (options : option Options)
  : RequestHandler :=
  processRequestAsync {| params := None; query := Some effectsSchema; body := None |} options.

Definition validateRequestBody (schema : ZodSchema) (options : option Options)
  : RequestHandler :=
  fun req res =>
    validateRequest {| params := None; query := None; body := Some schema |} options req res.

Definition validateRequestBodyAsync (schema : ZodSchema) (options : option Options)
  : RequestHandler :=
  fun req res =>
    validateRequestAsync {| params := None; query := None; body := Some schema |} options req res.

Definition validateRequestParams (schema : ZodSchema) (options : option Options)
  : RequestHandler :=
  fun req res =>
    validateRequest {| params := Some schema; query := None; body := None |} options req res.

Definition validateRequestParamsAsync (schema : ZodSchema) (options : option Options)
  : RequestHandler :=
  fun req res =>
    validateRequestAsync {| params := Some schema; query := None; body := None |} options req res.

Definition validateRequestQuery (schema : ZodSchema) (options : option Options)
  : RequestHandler :=
  fun req res =>
    validateRequest {| params := None; query := Some schema; body := None |} options req res.

Definition validateRequestQueryAsync (schema : ZodSchema) (options : option Options)
  : RequestHandler :=
  fun req res =>
    validateRequestAsync {| params := None; query := Some schema; body := None |} options req res.

(** [ValidateRequest(options)] and [ValidateRequestAsync(options)]: the
    combined entry point with its options bound first. *)
Definition ValidateRequest (options : option Options) : RequestSchemas -> RequestHandler :=
  fun schemas => validateRequest schemas options.

Definition ValidateRequestAsync (options : option Options) : RequestSchemas -> RequestHandler :=
  fun schemas => validateRequestAsync schemas options.

End Middleware.

(** ** Vocabulary of the specification

    The definitions below follow the words of the specification ("slot",
    "configured", "fails", "the failed-slot list", "is evaluated"); they are
    what the middleware is compared with, and none of them is used by it. *)

Section Vocabulary.

Context {Value ZodError : Type}.

Local Notation ErrorListItem := (ErrorListItem ZodError).
Local Notation SafeParseReturnType := (SafeParseReturnType Value ZodError).
Local Notation ZodSchema := (ZodSchema Value ZodError).
Local Notation RequestSchemas := (RequestSchemas Value ZodError).
Local Notation Request := (Request Value).
Local Notation Options := (Options Value ZodError).
Local Notation Exception := (Exception ZodError).
Local Notation Event := (Event Value ZodError).
Local Notation RequestHandler := (@RequestHandler Value ZodError).
Local Notation Completion := (@Completion ZodError).

(** The four combined entry points. *)
Inductive EntryPoint :=
| EP_processRequest
| EP_processRequestAsync
| EP_validateRequest
| EP_validateRequestAsync.

Definition middleware (ep : EntryPoint) : RequestSchemas -> option Options -> RequestHandler :=
  match ep with
  | EP_processRequest => processRequest
  | EP_processRequestAsync => processRequestAsync
  | EP_validateRequest => validateRequest
  | EP_validateRequestAsync => validateRequestAsync
  end.

Definition is_async (ep : EntryPoint) : bool :=
  match ep with
  | EP_processRequestAsync | EP_validateRequestAsync => true
  | _ => false
  end.

Definition is_process (ep : EntryPoint) : bool :=
  match ep with
  | EP_processRequest | EP_processRequestAsync => true
  | _ => false
  end.

(** The three slots, in the order the specification fixes. *)
Definition slots : list ErrorType := [Params; Query; Body].

Definition slot_schema (slot : ErrorType) (schemas : RequestSchemas) : option ZodSchema :=
  match slot with
  | Params => params schemas
  | Query => query schemas
  | Body => body schemas
  end.

Definition slot_value (slot : ErrorType) (req : Request) : Value :=
  match slot with
  | Params => req_params req
  | Query => req_query req
  | Body => req_body req
  end.

(** The parse an entry point uses: awaited for the async variants. *)
Definition parse (ep : EntryPoint) (schema : ZodSchema) (input : Value) : SafeParseReturnType :=
  if is_async ep then safeParseAsync schema input else safeParse schema input.

(** The outcome of a slot on a request: [None] when no schema is configured. *)
Definition slot_outcome (ep : EntryPoint) (schemas : RequestSchemas) (req : Request)
    (slot : ErrorType) : option SafeParseReturnType :=
  match slot_schema slot schemas with
  | Some schema => Some (parse ep schema (slot_value slot req))
  | None => None
  end.

(** A slot fails when it is configured and its schema rejects the field;
    the native error is returned. *)
Definition fails (ep : EntryPoint) (schemas : RequestSchemas) (req : Request)
    (slot : ErrorType) : option ZodError :=
  match slot_outcome ep schemas req slot with
  | Some (SafeParseError error) => Some error
  | _ => None
  end.

Definition has_failed (ep : EntryPoint) (schemas : RequestSchemas) (req : Request)
    (slot : ErrorType) : bool :=
  match fails ep schemas req slot with
  | Some _ => true
  | None => false
  end.

(** The failed-slot list: one item per failed slot among [among], in order. *)
Definition failed_among (among : list ErrorType) (ep : EntryPoint)
    (schemas : RequestSchemas) (req : Request) : list ErrorListItem :=
  flat_map (fun slot =>
    match fails ep schemas req slot with
    | Some error => [{| type := slot; errors := error |}]
    | None => []
    end) among.

Definition failed_slots : EntryPoint -> RequestSchemas -> Request -> list ErrorListItem :=
  failed_among slots.

(** The call by which an entry point evaluates the schema of a slot. *)
Definition parse_call (ep : EntryPoint) (slot : ErrorType) (input : Value) : Event :=
  if is_async ep then CallSafeParseAsync slot input else CallSafeParse slot input.

(** One parse call per configured slot among [among], in order, each on the
    field the request arrived with. *)
Definition parse_calls (among : list ErrorType) (ep : EntryPoint)
    (schemas : RequestSchemas) (req : Request) : list Event :=
  flat_map (fun slot =>
    match slot_schema slot schemas with
    | Some _ => [parse_call ep slot (slot_value slot req)]
    | None => []
    end) among.

Definition is_parse_of (slot : ErrorType) (ev : Event) : bool :=
  match ev with
  | CallSafeParse s _ | CallSafeParseAsync s _ => slot_eqb s slot
  | _ => false
  end.

(** The schema of [slot] was evaluated during the invocation. *)
Definition evaluated (slot : ErrorType) (trace : list Event) : bool :=
  existsb (is_parse_of slot) trace.

Definition is_parse (ev : Event) : bool :=
  match ev with
  | CallSafeParse _ _ | CallSafeParseAsync _ _ => true
  | _ => false
  end.

Definition is_next (ev : Event) : bool :=
  match ev with
  | CallNext _ => true
  | _ => false
  end.

(** A call of either responder. *)
Definition is_responder (ev : Event) : bool :=
  match ev with
  | CallSendErrors _ | CallOptionsSendErrors _ => true
  | _ => false
  end.

(** The error an invocation raised: thrown, or the rejection of its promise. *)
Definition raised (c : Completion) : option Exception :=
  match c with
  | Threw e | Rejected e => Some e
  | Returned | Fulfilled => None
  end.

(** Completion without an error, for a plain and for an async handler. *)
Definition normal (ep : EntryPoint) : Completion :=
  if is_async ep then Fulfilled else Returned.

(** The same outcome seen through the promise of an async handler. *)
Definition as_promise (c : Completion) : Completion :=
  match c with
  | Returned => Fulfilled
  | Threw e => Rejected e
  | other => other
  end.

(** A trace with every awaited parse read as the plain parse. *)
Definition sync_view (ev : Event) : Event :=
  match ev with
  | CallSafeParseAsync slot input => CallSafeParse slot input
  | other => other
  end.

(** The response the specification prescribes on the default failure path. *)
Definition bad_request (items : list ErrorListItem) : Response Value ZodError :=
  {| statusCode := 400; sent := Some (ErrorsPayload items) |}.

(** At least one configured slot fails. *)
Definition any_failure (ep : EntryPoint) (schemas : RequestSchemas) (req : Request) : bool :=
  existsb (has_failed ep schemas req) slots.

(** The value a slot holds once its schema has accepted it: the
    transformed output when the slot was parsed successfully, the value the
    request arrived with otherwise. *)
Definition field_after (ep : EntryPoint) (schemas : RequestSchemas) (req : Request)
    (slot : ErrorType) : Value :=
  match slot_outcome ep schemas req slot with
  | Some (SafeParseSuccess data) => data
  | _ => slot_value slot req
  end.

(** The error list an event hands over, if any. *)
Definition reported (ev : Event) : option (list ErrorListItem) :=
  match ev with
  | CallNext (Some items) | CallSendErrors items | CallOptionsSendErrors items => Some items
  | _ => None
  end.

(** The awaited parse of a schema settles with the result of its plain
    parse on [input]; vacuous for an absent schema. *)
Definition async_agrees (schema : option ZodSchema) (input : Value) : Prop :=
  match schema with
  | Some s => safeParseAsync s input = safeParse s input
  | None => True
  end.

(** An async invocation matches a plain one: same request, response and
    accumulator afterwards, the same calls in the same order (an awaited
    parse standing for the plain parse), and a promise settled the way the
    plain handler completed. *)
Definition matches_sync (plain async : Completion * State Value ZodError) : Prop :=
  fst async = as_promise (fst plain)
  /\ raised (fst async) = raised (fst plain)
  /\ st_req (snd async) = st_req (snd plain)
  /\ st_res (snd async) = st_res (snd plain)
  /\ st_errors (snd async) = st_errors (snd plain)
  /\ map sync_view (st_trace (snd async)) = st_trace (snd plain).

(** Completion with an error, for a plain and for an async handler. *)
Definition abrupt (ep : EntryPoint) (e : Exception) : Completion :=
  if is_async ep then Rejected e else Threw e.

(** The request with the fields of the slots in [done] rewritten and the
    others as they arrived. *)
Definition rewritten_upto (done : list ErrorType) (ep : EntryPoint)
    (schemas : RequestSchemas) (req : Request) : Request :=
  let pick slot :=
    if existsb (slot_eqb slot) done then field_after ep schemas req slot
    else slot_value slot req in
  {| req_params := pick Params; req_query := pick Query; req_body := pick Body |}.

Definition rewritten : EntryPoint -> RequestSchemas -> Request -> Request :=
  rewritten_upto slots.

(** The request an entry point leaves behind once the slots in [done] have
    been accepted: only [processRequest] and its async variant write. *)
Definition request_after (done : list ErrorType) (ep : EntryPoint)
    (schemas : RequestSchemas) (req : Request) : Request :=
  if is_process ep then rewritten_upto done ep schemas req else req.

End Vocabulary.

(** ** Sample values

    A concrete instance used to run the middleware: JSON-like request
    values, zod-like issue lists, and the two schemas of the scenarios of
    the specification. *)

Module Sample.

Inductive Json :=
| JNull
| JBool (b : bool)
| JNumber (n : Z)
| JString (s : string)
| JObject (fields : list (string * Json)).

Record ZodIssue := { code : string; path : list string; issue_message : string }.

Definition Issues : Type := list ZodIssue.

Definition digit_of (c : Ascii.ascii) : option Z :=
  let n := Ascii.nat_of_ascii c in
  if (48 <=? n) && (n <=? 57) then Some (Z.of_nat (n - 48)) else None.

Fixpoint number_of (acc : Z) (s : string) : option Z :=
  match s with
  | EmptyString => Some acc
  | String c rest =>
      match digit_of c with
      | Some d => number_of (10 * acc + d) rest
      | None => None
      end
  end.

(** [z.object({ id: z.coerce.number().int() })] on decimal strings. *)
Definition id_parse (input : Json) : SafeParseReturnType Json Issues :=
  match input with
  | JObject [(key, JString (String c rest))] =>
      if String.eqb key "id" then
        match number_of 0 (String c rest) with
        | Some n => SafeParseSuccess (JObject [("id"%string, JNumber n)])
        | None =>
            SafeParseError
              [{| code := "invalid_type"; path := ["id"%string];
                  issue_message := "Expected number, received nan" |}]
        end
      else
        SafeParseError
          [{| code := "invalid_type"; path := ["id"%string]; issue_message := "Required" |}]
  | JObject [(key, JNumber n)] =>
      if String.eqb key "id" then SafeParseSuccess (JObject [("id"%string, JNumber n)])
      else
        SafeParseError
          [{| code := "invalid_type"; path := ["id"%string]; issue_message := "Required" |}]
  | _ =>
      SafeParseError
        [{| code := "invalid_type"; path := ["id"%string]; issue_message := "Required" |}]
  end.

Definition id_schema : ZodSchema Json Issues :=
  {| safeParse := id_parse; safeParseAsync := id_parse |}.

(** [z.object({ name: z.string().min(1) })] *)
Definition name_parse (input : Json) : SafeParseReturnType Json Issues :=
  match input with
  | JObject [(key, JString s)] =>
      if String.eqb key "name" then
        match s with
        | EmptyString =>
            SafeParseError
              [{| code := "too_small"; path := ["name"%string];
                  issue_message := "String must contain at least 1 character(s)" |}]
        | _ => SafeParseSuccess input
        end
      else
        SafeParseError
          [{| code := "invalid_type"; path := ["name"%string]; issue_message := "Required" |}]
  | _ =>
      SafeParseError
        [{| code := "invalid_type"; path := ["name"%string]; issue_message := "Required" |}]
  end.

Definition name_schema : ZodSchema Json Issues :=
  {| safeParse := name_parse; safeParseAsync := name_parse |}.

Definition too_small : Issues :=
  [{| code := "too_small"; path := ["name"%string];
      issue_message := "String must contain at least 1 character(s)" |}].

Definition id_required : Issues :=
  [{| code := "invalid_type"; path := ["id"%string]; issue_message := "Required" |}].

Definition no_schemas : RequestSchemas Json Issues :=
  {| params := None; query := None; body := None |}.

Definition only_params (s : ZodSchema Json Issues) : RequestSchemas Json Issues :=
  {| params := Some s; query := None; body := None |}.

Definition only_body (s : ZodSchema Json Issues) : RequestSchemas Json Issues :=
  {| params := None; query := None; body := Some s |}.

Definition all_three : RequestSchemas Json Issues :=
  {| params := Some id_schema; query := Some id_schema; body := Some name_schema |}.

(** A request every slot of which is accepted; params and query are coerced. *)
Definition good_request : Request Json :=
  {| req_params := JObject [("id"%string, JString "42")];
     req_query := JObject [("id"%string, JString "7")];
     req_body := JObject [("name"%string, JString "Ada")] |}.

(** A request whose params and body are rejected. *)
Definition bad_request_in : Request Json :=
  {| req_params := JObject [];
     req_query := JObject [("id"%string, JString "7")];
     req_body := JObject [("name"%string, JString "")] |}.

(** A fresh express response. *)
Definition fresh_response : Response Json Issues :=
  {| statusCode := 200; sent := None |}.

(** A custom responder: status 422 and a fixed message. *)
Definition custom_responder (errs : list (ErrorListItem Issues))
    (res : Response Json Issues) : Response Json Issues :=
  send (OtherPayload (JString "validation failed")) (status 422 res).

Definition default_options : Options Json Issues :=
  {| passErrorToNext := None; throwErrors := None; custom_sendErrors := None |}.

Definition throwing : Options Json Issues :=
  {| passErrorToNext := None; throwErrors := Some true; custom_sendErrors := None |}.

Definition forwarding : Options Json Issues :=
  {| passErrorToNext := Some true; throwErrors := None; custom_sendErrors := None |}.

Definition with_custom_responder : Options Json Issues :=
  {| passErrorToNext := None; throwErrors := None;
     custom_sendErrors := Some custom_responder |}.

End Sample.


(** ** Further vocabulary

    Words for the properties beyond the claims: the single-slot entry
    points as a family, the error a failed item is raised as, and schemas
    that accept their own output. *)

Section FurtherVocabulary.

Context {Value ZodError : Type}.

Local Notation ErrorListItem := (ErrorListItem ZodError).
Local Notation ZodSchema := (ZodSchema Value ZodError).
Local Notation RequestSchemas := (RequestSchemas Value ZodError).
Local Notation Request := (Request Value).
Local Notation Options := (Options Value ZodError).
Local Notation Exception := (Exception ZodError).
Local Notation Event := (Event Value ZodError).
Local Notation RequestHandler := (@RequestHandler Value ZodError).

(** The error class a failed item is thrown as under [throwErrors]. *)
Definition exception_of (item : ErrorListItem) : Exception :=
  match type item with
  | Params => InvalidParamsError (errors item)
  | Query => InvalidQueryError (errors item)
  | Body => InvalidBodyError (errors item)
  end.

(** The twelve single-slot entry points, by family and slot. *)
Definition single (ep : EntryPoint) (slot : ErrorType)
  : ZodSchema -> option Options -> RequestHandler :=
  match ep, slot with
  | EP_processRequest, Params => processRequestParams
  | EP_processRequest, Query => processRequestQuery
  | EP_processRequest, Body => processRequestBody
  | EP_processRequestAsync, Params => processRequestParamsAsync
  | EP_processRequestAsync, Query => processRequestQueryAsync
  | EP_processRequestAsync, Body => processRequestBodyAsync
  | EP_validateRequest, Params => validateRequestParams
  | EP_validateRequest, Query => validateRequestQuery
  | EP_validateRequest, Body => validateRequestBody
  | EP_validateRequestAsync, Params => validateRequestParamsAsync
  | EP_validateRequestAsync, Query => validateRequestQueryAsync
  | EP_validateRequestAsync, Body => validateRequestBodyAsync
  end.

(** The calls of a trace other than schema evaluations. *)
Definition closing_calls (trace : list Event) : list Event :=
  filter (fun ev => negb (is_parse ev)) trace.

(** The schema of [slot], when configured, accepts again what it returned
    for the field of [req], and returns it unchanged. *)
Definition accepts_own_output (ep : EntryPoint) (schemas : RequestSchemas) (req : Request)
    (slot : ErrorType) : Prop :=
  match slot_schema slot schemas with
  | Some schema =>
      forall data,
        parse ep schema (slot_value slot req) = SafeParseSuccess data ->
        parse ep schema data = SafeParseSuccess data
  | None => True
  end.

(** A handler applied to the request and the response an earlier
    invocation left behind. *)
Definition after (earlier : @Completion ZodError * State Value ZodError)
    (h : RequestHandler) : @Completion ZodError * State Value ZodError :=
  h (st_req (snd earlier)) (st_res (snd earlier)).

End FurtherVocabulary.

(** Further sample values: options with explicit flags and a request whose
    query is rejected after its params are accepted. *)

Module FurtherSample.

Import Sample.

Definition all_false : Options Json Issues :=
  {| passErrorToNext := Some false; throwErrors := Some false; custom_sendErrors := None |}.

Definition throwing_and_forwarding : Options Json Issues :=
  {| passErrorToNext := Some true; throwErrors := Some true;
     custom_sendErrors := Some custom_responder |}.

Definition bad_query_request : Request Json :=
  {| req_params := JObject [("id"%string, JString "42")];
     req_query := JObject [];
     req_body := JObject [("name"%string, JString "Ada")] |}.

End FurtherSample.

(** ** Properties *)

Section Properties.

Context {Value ZodError : Type}.

Local Notation RequestSchemas := (RequestSchemas Value ZodError).
Local Notation Request := (Request Value).
Local Notation Response := (Response Value ZodError).
Local Notation Options := (Options Value ZodError).
Local Notation ZodSchema := (ZodSchema Value ZodError).
Local Notation ErrorListItem := (ErrorListItem ZodError).

Implicit Types (ep : EntryPoint) (schemas : RequestSchemas) (options : option Options)
  (req : Request) (res : Response) (slot : ErrorType).

Arguments truthy : simpl never.
Arguments default_arg : simpl never.

Ltac unfold_mw :=
  unfold middleware, processRequest, processRequestAsync, validateRequest,
    validateRequestAsync, handler, async_handler, initial, when_defined,
    call_safeParse, call_safeParseAsync, await, next, sendErrors,
    call_options_sendErrors, set_params, set_query, set_body, push, emit,
    set_req, set_res, modify, gets, bind, ret, throw in *.

Ltac unfold_vocabulary :=
  unfold any_failure, has_failed, failed_slots, failed_among, fails, request_after,
    rewritten, rewritten_upto, field_after, slot_outcome, parse, parse_calls,
    parse_call, slots, bad_request, normal, abrupt in *.

(** Case analysis on the result of every parse in sight. *)
Ltac split_parse :=
  repeat match goal with
  | |- context [safeParse ?s ?v] => destruct (safeParse s v); cbn in *
  | |- context [safeParseAsync ?s ?v] => destruct (safeParseAsync s v); cbn in *
  | H : context [safeParse ?s ?v] |- _ => destruct (safeParse s v); cbn in *
  | H : context [safeParseAsync ?s ?v] |- _ => destruct (safeParseAsync s v); cbn in *
  end.

Ltac use_flags :=
  repeat match goal with
  | H : truthy _ = _ |- _ => rewrite !H in *; clear H
  | H : custom_sendErrors _ = _ |- _ => rewrite !H in *; clear H
  end; cbn in *.

Ltac same_error :=
  repeat match goal with
  | H : Some _ = Some _ |- _ => inversion H; subst; clear H
  end.

(** Every combination of entry point, configured slots and parse results. *)
Ltac by_cases ep schemas req :=
  destruct req as [?vp ?vq ?vb];
  destruct schemas as [[?p|] [?q|] [?b|]]; destruct ep;
  unfold_vocabulary; cbn in *; unfold_mw; cbn in *; use_flags; split_parse;
  try discriminate; same_error.

(** *** The responder copies each item field by field *)

Lemma copy_items (items : list ErrorListItem) :
  map (fun error => {| type := type error; errors := errors error |}) items = items.
Proof.
  induction items as [|[t e] items IH]; cbn; [reflexivity | now rewrite IH].
Qed.

(** *** What the failed-slot list contains *)

Lemma failed_slots_types ep schemas req :
  map (@type ZodError) (failed_slots ep schemas req)
  = filter (has_failed ep schemas req) slots.
Proof.
  unfold failed_slots, failed_among, slots, has_failed. cbn.
  destruct (fails ep schemas req Params), (fails ep schemas req Query),
    (fails ep schemas req Body); reflexivity.
Qed.

Lemma failed_slots_In ep schemas req (item : ErrorListItem) :
  In item (failed_slots ep schemas req)
  <-> fails ep schemas req (type item) = Some (errors item).
Proof.
  unfold failed_slots, failed_among, slots. cbn.
  destruct item as [t e]; cbn. split.
  - destruct (fails ep schemas req Params) eqn:EP, (fails ep schemas req Query) eqn:EQ,
      (fails ep schemas req Body) eqn:EB; cbn; intros H;
      repeat (destruct H as [H|H]; [inversion H; subst; assumption|]); contradiction.
  - intros H. destruct t; rewrite H; cbn;
      destruct (fails ep schemas req Params), (fails ep schemas req Query),
        (fails ep schemas req Body); cbn; try discriminate; auto.
Qed.

Lemma failed_slots_nil ep schemas req :
  any_failure ep schemas req = false <-> failed_slots ep schemas req = [].
Proof.
  unfold any_failure, failed_slots, failed_among, slots, has_failed. cbn.
  destruct (fails ep schemas req Params), (fails ep schemas req Query),
    (fails ep schemas req Body); cbn; split; intros H; try discriminate; reflexivity.
Qed.

Lemma parse_calls_are_parses (among : list ErrorType) ep schemas req :
  filter (@is_parse Value ZodError) (parse_calls among ep schemas req)
  = parse_calls among ep schemas req.
Proof.
  unfold parse_calls.
  induction among as [|slot among IH]; cbn; [reflexivity|].
  destruct (slot_schema slot schemas); cbn; [|exact IH].
  unfold parse_call at 1. destruct (is_async ep); cbn; now rewrite IH.
Qed.

Lemma parse_calls_evaluated ep schemas req slot :
  evaluated slot (parse_calls slots ep schemas req)
  = match slot_schema slot schemas with Some _ => true | None => false end.
Proof.
  destruct schemas as [[p|] [q|] [b|]], slot, ep; reflexivity.
Qed.

(** *** The run of a middleware, strategy by strategy *)

(** No configured slot fails: the continuation is called bare. *)
Lemma run_valid ep schemas options req res :
  any_failure ep schemas req = false ->
  middleware ep schemas options req res
  = (normal ep,
     {| st_req := request_after slots ep schemas req;
        st_res := res;
        st_errors := [];
        st_trace := parse_calls slots ep schemas req ++ [CallNext None] |}).
Proof.
  intros H. by_cases ep schemas req; reflexivity.
Qed.

(** Failures are forwarded to the continuation. *)
Lemma run_forward ep schemas options req res :
  any_failure ep schemas req = true ->
  truthy (throwErrors (default_arg options)) = false ->
  truthy (passErrorToNext (default_arg options)) = true ->
  middleware ep schemas options req res
  = (normal ep,
     {| st_req := request_after slots ep schemas req;
        st_res := res;
        st_errors := failed_slots ep schemas req;
        st_trace := parse_calls slots ep schemas req
                    ++ [CallNext (Some (failed_slots ep schemas req))] |}).
Proof.
  intros H Ht Hp. by_cases ep schemas req; reflexivity.
Qed.

(** Failures are answered by the built-in responder. *)
Lemma run_respond ep schemas options req res :
  any_failure ep schemas req = true ->
  truthy (throwErrors (default_arg options)) = false ->
  truthy (passErrorToNext (default_arg options)) = false ->
  custom_sendErrors (default_arg options) = None ->
  middleware ep schemas options req res
  = (normal ep,
     {| st_req := request_after slots ep schemas req;
        st_res := bad_request (failed_slots ep schemas req);
        st_errors := failed_slots ep schemas req;
        st_trace := parse_calls slots ep schemas req
                    ++ [CallSendErrors (failed_slots ep schemas req)] |}).
Proof.
  intros H Ht Hp Hc. by_cases ep schemas req; reflexivity.
Qed.

(** With a callback configured, [validateRequest] and its async variant
    answer through the callback ... *)
Lemma run_respond_custom ep schemas options req res callback :
  is_process ep = false ->
  any_failure ep schemas req = true ->
  truthy (throwErrors (default_arg options)) = false ->
  truthy (passErrorToNext (default_arg options)) = false ->
  custom_sendErrors (default_arg options) = Some callback ->
  middleware ep schemas options req res
  = (normal ep,
     {| st_req := req;
        st_res := callback (failed_slots ep schemas req) res;
        st_errors := failed_slots ep schemas req;
        st_trace := parse_calls slots ep schemas req
                    ++ [CallOptionsSendErrors (failed_slots ep schemas req)] |}).
Proof.
  intros Hv H Ht Hp Hc. by_cases ep schemas req; reflexivity.
Qed.

(** ... whereas [processRequest] and its async variant still answer through
    the built-in responder. *)
Lemma run_respond_process ep schemas options req res :
  is_process ep = true ->
  any_failure ep schemas req = true ->
  truthy (throwErrors (default_arg options)) = false ->
  truthy (passErrorToNext (default_arg options)) = false ->
  middleware ep schemas options req res
  = (normal ep,
     {| st_req := rewritten ep schemas req;
        st_res := bad_request (failed_slots ep schemas req);
        st_errors := failed_slots ep schemas req;
        st_trace := parse_calls slots ep schemas req
                    ++ [CallSendErrors (failed_slots ep schemas req)] |}).
Proof.
  intros Hv H Ht Hp.
  destruct (custom_sendErrors (default_arg options)) eqn:Hc;
    by_cases ep schemas req; reflexivity.
Qed.

(** With [throwErrors], the first failing slot ends the invocation. *)
Lemma run_throw_params ep schemas options req res error :
  truthy (throwErrors (default_arg options)) = true ->
  fails ep schemas req Params = Some error ->
  middleware ep schemas options req res
  = (abrupt ep (InvalidParamsError error),
     {| st_req := req;
        st_res := res;
        st_errors := [];
        st_trace := parse_calls [Params] ep schemas req |}).
Proof.
  intros Ht H. by_cases ep schemas req; reflexivity.
Qed.

Lemma run_throw_query ep schemas options req res error :
  truthy (throwErrors (default_arg options)) = true ->
  fails ep schemas req Params = None ->
  fails ep schemas req Query = Some error ->
  middleware ep schemas options req res
  = (abrupt ep (InvalidQueryError error),
     {| st_req := request_after [Params] ep schemas req;
        st_res := res;
        st_errors := [];
        st_trace := parse_calls [Params; Query] ep schemas req |}).
Proof.
  intros Ht HP H. by_cases ep schemas req; reflexivity.
Qed.

Lemma run_throw_body ep schemas options req res error :
  truthy (throwErrors (default_arg options)) = true ->
  fails ep schemas req Params = None ->
  fails ep schemas req Query = None ->
  fails ep schemas req Body = Some error ->
  middleware ep schemas options req res
  = (abrupt ep (InvalidBodyError error),
     {| st_req := request_after [Params; Query] ep schemas req;
        st_res := res;
        st_errors := [];
        st_trace := parse_calls slots ep schemas req |}).
Proof.
  intros Ht HP HQ H. by_cases ep schemas req; reflexivity.
Qed.

(** Without [throwErrors] every invocation completes normally after all
    configured slots have been parsed, with the failures in the accumulator
    and one closing call that carries them when there are any. *)
Lemma run_accumulate ep schemas options req res :
  truthy (throwErrors (default_arg options)) = false ->
  exists (res' : Response) (closing : Event Value ZodError),
    middleware ep schemas options req res
    = (normal ep,
       {| st_req := request_after slots ep schemas req;
          st_res := res';
          st_errors := failed_slots ep schemas req;
          st_trace := parse_calls slots ep schemas req ++ [closing] |})
    /\ is_parse closing = false
    /\ (any_failure ep schemas req = true ->
        reported closing = Some (failed_slots ep schemas req)).
Proof.
  intros Ht.
  destruct (any_failure ep schemas req) eqn:Hf.
  - destruct (truthy (passErrorToNext (default_arg options))) eqn:Hp.
    + eexists _, _. rewrite (run_forward _ _ _ _ _ Hf Ht Hp). now repeat split.
    + destruct (is_process ep) eqn:Hk.
      * eexists _, _. rewrite (run_respond_process _ _ _ _ _ Hk Hf Ht Hp).
        unfold request_after. rewrite Hk. now repeat split.
      * destruct (custom_sendErrors (default_arg options)) as [callback|] eqn:Hc.
        -- eexists _, _. rewrite (run_respond_custom _ _ _ _ _ Hk Hf Ht Hp Hc).
           unfold request_after. rewrite Hk. now repeat split.
        -- eexists _, _. rewrite (run_respond _ _ _ _ _ Hf Ht Hp Hc). now repeat split.
  - eexists _, _. rewrite (run_valid _ _ options _ res Hf).
    apply failed_slots_nil in Hf. rewrite Hf.
    repeat split. discriminate.
Qed.

Lemma filter_parse_calls (f : Event Value ZodError -> bool) (among : list ErrorType)
    ep schemas req :
  (forall slot input, f (CallSafeParse slot input) = false) ->
  (forall slot input, f (CallSafeParseAsync slot input) = false) ->
  filter f (parse_calls among ep schemas req) = [].
Proof.
  intros Hs Ha. unfold parse_calls.
  induction among as [|slot among IH]; cbn; [reflexivity|].
  destruct (slot_schema slot schemas); cbn; [|exact IH].
  unfold parse_call at 1. destruct (is_async ep); now rewrite ?Hs, ?Ha.
Qed.

Lemma rewritten_field ep schemas req slot :
  slot_value slot (rewritten ep schemas req) = field_after ep schemas req slot.
Proof. destruct slot; reflexivity. Qed.

(** ** The claims *)

(** C2, as amended.  When no configured slot fails, every combined entry
    point completes normally after calling the continuation once, with no
    argument, and leaves the response as it was.  [processRequest] and
    [processRequestAsync] leave in each parsed slot the output of its
    schema; [validateRequest] and [validateRequestAsync] leave the request
    as it arrived. *)
Theorem valid_request_proceeds ep schemas options req res :
  any_failure ep schemas req = false ->
  fst (middleware ep schemas options req res) = normal ep
  /\ st_trace (snd (middleware ep schemas options req res))
     = parse_calls slots ep schemas req ++ [CallNext None]
  /\ filter (@is_next Value ZodError) (st_trace (snd (middleware ep schemas options req res)))
     = [CallNext None]
  /\ st_res (snd (middleware ep schemas options req res)) = res
  /\ (is_process ep = true ->
      forall slot data,
        slot_outcome ep schemas req slot = Some (SafeParseSuccess data) ->
        slot_value slot (st_req (snd (middleware ep schemas options req res))) = data)
  /\ (is_process ep = false ->
      st_req (snd (middleware ep schemas options req res)) = req).
Proof.
  intros Hf. rewrite (run_valid _ _ options _ res Hf). cbn [fst snd st_trace st_res st_req].
  repeat split.
  - rewrite filter_app, filter_parse_calls; reflexivity.
  - intros Hk slot data Hd. unfold request_after. rewrite Hk.
    fold (rewritten ep schemas req). rewrite rewritten_field.
    unfold field_after. now rewrite Hd.
  - intros Hk. unfold request_after. now rewrite Hk.
Qed.

(** C3.  With [throwErrors] set: a failing params slot raises
    [InvalidParamsError] with the native error and neither the query nor
    the body schema is evaluated; otherwise a failing query slot raises
    [InvalidQueryError] and the body schema is not evaluated; otherwise a
    failing body slot raises [InvalidBodyError]; and when no configured
    slot fails the continuation is called with no argument. *)
Theorem throwErrors_first_failure ep schemas options req res :
  truthy (throwErrors (default_arg options)) = true ->
  (forall error,
     fails ep schemas req Params = Some error ->
     raised (fst (middleware ep schemas options req res)) = Some (InvalidParamsError error)
     /\ evaluated Query (st_trace (snd (middleware ep schemas options req res))) = false
     /\ evaluated Body (st_trace (snd (middleware ep schemas options req res))) = false)
  /\ (forall error,
        fails ep schemas req Params = None ->
        fails ep schemas req Query = Some error ->
        raised (fst (middleware ep schemas options req res)) = Some (InvalidQueryError error)
        /\ evaluated Body (st_trace (snd (middleware ep schemas options req res))) = false)
  /\ (forall error,
        fails ep schemas req Params = None ->
        fails ep schemas req Query = None ->
        fails ep schemas req Body = Some error ->
        raised (fst (middleware ep schemas options req res)) = Some (InvalidBodyError error))
  /\ (any_failure ep schemas req = false ->
      raised (fst (middleware ep schemas options req res)) = None
      /\ filter (@is_next Value ZodError)
           (st_trace (snd (middleware ep schemas options req res)))
         = [CallNext None]).
Proof.
  intros Ht. repeat apply conj.
  - intros error HP. rewrite (run_throw_params _ _ _ _ res Ht HP).
    cbn [fst snd st_trace]. clear.
    destruct schemas as [[p|] q b], ep; repeat split.
  - intros error HP HQ. rewrite (run_throw_query _ _ _ _ res Ht HP HQ).
    cbn [fst snd st_trace]. clear.
    destruct schemas as [[p|] [q|] b], ep; repeat split.
  - intros error HP HQ HB. rewrite (run_throw_body _ _ _ _ res Ht HP HQ HB).
    destruct ep; reflexivity.
  - intros Hf. rewrite (run_valid _ _ options _ res Hf). cbn [fst snd st_trace].
    split; [destruct ep; reflexivity|].
    rewrite filter_app, filter_parse_calls; reflexivity.
Qed.

(** C4.  When a configured slot fails, neither [throwErrors] nor
    [passErrorToNext] is set and no callback is given, the response gets
    status 400 and, as its body, the failed-slot list: its types are the
    failed slots in the order Params, Query, Body, and an item is in it
    exactly when the slot of its type failed with its error, so a slot
    without schema or with an accepted value has no item. *)
Theorem default_failure_response ep schemas options req res :
  any_failure ep schemas req = true ->
  truthy (throwErrors (default_arg options)) = false ->
  truthy (passErrorToNext (default_arg options)) = false ->
  custom_sendErrors (default_arg options) = None ->
  st_res (snd (middleware ep schemas options req res))
  = {| statusCode := 400; sent := Some (ErrorsPayload (failed_slots ep schemas req)) |}
  /\ map (@type ZodError) (failed_slots ep schemas req)
     = filter (has_failed ep schemas req) [Params; Query; Body]
  /\ (forall item : ErrorListItem,
        In item (failed_slots ep schemas req)
        <-> fails ep schemas req (type item) = Some (errors item)).
Proof.
  intros Hf Ht Hp Hc. rewrite (run_respond _ _ _ _ res Hf Ht Hp Hc).
  split; [reflexivity|]. split.
  - apply failed_slots_types.
  - apply failed_slots_In.
Qed.

(** C5.  With [passErrorToNext] set, [throwErrors] not set and a failing
    slot, the continuation is called once, with the failed-slot list as its
    only argument, and the response is left as it was. *)
Theorem failures_forwarded ep schemas options req res :
  truthy (passErrorToNext (default_arg options)) = true ->
  truthy (throwErrors (default_arg options)) = false ->
  any_failure ep schemas req = true ->
  st_trace (snd (middleware ep schemas options req res))
  = parse_calls slots ep schemas req ++ [CallNext (Some (failed_slots ep schemas req))]
  /\ filter (@is_next Value ZodError) (st_trace (snd (middleware ep schemas options req res)))
     = [CallNext (Some (failed_slots ep schemas req))]
  /\ filter (@is_responder Value ZodError)
       (st_trace (snd (middleware ep schemas options req res))) = []
  /\ st_res (snd (middleware ep schemas options req res)) = res.
Proof.
  intros Hp Ht Hf. rewrite (run_forward _ _ _ _ res Hf Ht Hp). cbn [snd st_trace st_res].
  repeat split; rewrite filter_app, filter_parse_calls; reflexivity.
Qed.

(** C6.  Without [throwErrors], the schema of every configured slot is
    evaluated, once and in order, whatever the earlier slots gave; every
    failure is in the accumulator, which is the failed-slot list; and when
    there is a failure the accumulator is handed over by a call of the
    invocation. *)
Theorem all_slots_checked ep schemas options req res :
  truthy (throwErrors (default_arg options)) = false ->
  filter (@is_parse Value ZodError) (st_trace (snd (middleware ep schemas options req res)))
  = parse_calls slots ep schemas req
  /\ (forall slot schema,
        slot_schema slot schemas = Some schema ->
        evaluated slot (st_trace (snd (middleware ep schemas options req res))) = true)
  /\ st_errors (snd (middleware ep schemas options req res)) = failed_slots ep schemas req
  /\ (forall slot error,
        fails ep schemas req slot = Some error ->
        In {| type := slot; errors := error |}
           (st_errors (snd (middleware ep schemas options req res))))
  /\ (any_failure ep schemas req = true ->
      exists closing,
        In closing (st_trace (snd (middleware ep schemas options req res)))
        /\ reported closing = Some (failed_slots ep schemas req)).
Proof.
  intros Ht.
  destruct (run_accumulate ep schemas options req res Ht) as (res' & closing & Hrun & Hc & Hr).
  rewrite Hrun. cbn [snd st_trace st_errors]. repeat apply conj.
  - rewrite filter_app, parse_calls_are_parses. cbn. rewrite Hc. apply app_nil_r.
  - intros slot schema Hs. unfold evaluated. rewrite existsb_app.
    fold (evaluated slot (parse_calls slots ep schemas req)).
    rewrite parse_calls_evaluated, Hs. reflexivity.
  - reflexivity.
  - intros slot error Hs. apply failed_slots_In. exact Hs.
  - intros Hf. exists closing. split; [|auto].
    apply in_or_app. right. now left.
Qed.

(** C7.  When the awaited parse of each configured schema settles with the
    result of its plain parse on the request, [processRequestAsync] leaves
    the request, the response and the accumulator as [processRequest] does,
    makes the same calls in the same order, and rejects its promise with the
    error [processRequest] throws (or fulfils it when [processRequest]
    returns); likewise [validateRequestAsync] and [validateRequest].  The
    parses of an async invocation are those of an initial segment of
    Params, Query, Body, in that order. *)
Theorem async_matches_plain schemas options req res :
  async_agrees (params schemas) (req_params req) ->
  async_agrees (query schemas) (req_query req) ->
  async_agrees (body schemas) (req_body req) ->
  matches_sync (processRequest schemas options req res)
               (processRequestAsync schemas options req res)
  /\ matches_sync (validateRequest schemas options req res)
                  (validateRequestAsync schemas options req res)
  /\ (exists n,
        filter (@is_parse Value ZodError)
          (st_trace (snd (processRequestAsync schemas options req res)))
        = parse_calls (firstn n slots) EP_processRequestAsync schemas req)
  /\ (exists n,
        filter (@is_parse Value ZodError)
          (st_trace (snd (validateRequestAsync schemas options req res)))
        = parse_calls (firstn n slots) EP_validateRequestAsync schemas req).
Proof.
  intros HP HQ HB.
  destruct req as [vp vq vb]; destruct schemas as [[p|] [q|] [b|]];
    cbn in HP, HQ, HB; unfold matches_sync; unfold_mw; cbn;
    destruct (truthy (throwErrors (default_arg options)));
    destruct (truthy (passErrorToNext (default_arg options)));
    destruct (custom_sendErrors (default_arg options));
    repeat (rewrite ?HP, ?HQ, ?HB;
            match goal with
            | |- context [safeParse ?s ?v] => destruct (safeParse s v); cbn
            end);
    (repeat apply conj; try reflexivity;
     first [ now exists 3 | now exists 2 | now exists 1 | now exists 0 ]).
Qed.

(** C8.  Each single-slot entry point is the combined entry point applied
    to the schema set holding only that slot's schema. *)
Theorem single_slot_delegates (schema : ZodSchema) options req res :
  processRequestBody schema options req res
  = processRequest {| params := None; query := None; body := Some schema |} options req res
  /\ processRequestParams schema options req res
     = processRequest {| params := Some schema; query := None; body := None |} options req res
  /\ processRequestQuery schema options req res
     = processRequest {| params := None; query := Some schema; body := None |} options req res
  /\ validateRequestBody schema options req res
     = validateRequest {| params := None; query := None; body := Some schema |} options req res
  /\ validateRequestParams schema options req res
     = validateRequest {| params := Some schema; query := None; body := None |} options req res
  /\ validateRequestQuery schema options req res
     = validateRequest {| params := None; query := Some schema; body := None |} options req res.
Proof.
  unfold processRequestBody, processRequestParams, processRequestQuery,
    validateRequestBody, validateRequestParams, validateRequestQuery.
  repeat split.
Qed.

(** The async single-slot entry points delegate in the same way. *)
Lemma single_slot_delegates_async (schema : ZodSchema) options req res :
  processRequestBodyAsync schema options req res
  = processRequestAsync {| params := None; query := None; body := Some schema |} options req res
  /\ processRequestParamsAsync schema options req res
     = processRequestAsync {| params := Some schema; query := None; body := None |}
         options req res
  /\ processRequestQueryAsync schema options req res
     = processRequestAsync {| params := None; query := Some schema; body := None |}
         options req res
  /\ validateRequestBodyAsync schema options req res
     = validateRequestAsync {| params := None; query := None; body := Some schema |}
         options req res
  /\ validateRequestParamsAsync schema options req res
     = validateRequestAsync {| params := Some schema; query := None; body := None |}
         options req res
  /\ validateRequestQueryAsync schema options req res
     = validateRequestAsync {| params := None; query := Some schema; body := None |}
         options req res.
Proof.
  unfold processRequestBodyAsync, processRequestParamsAsync, processRequestQueryAsync,
    validateRequestBodyAsync, validateRequestParamsAsync, validateRequestQueryAsync.
  repeat split.
Qed.

(** C9.  With no slot configured, whatever the options, every combined
    entry point makes exactly one call, the continuation with no argument,
    completes without an error, and leaves the request and the response as
    they were. *)
Theorem no_schema_proceeds ep options req res :
  middleware ep {| params := None; query := None; body := None |} options req res
  = (normal ep,
     {| st_req := req; st_res := res; st_errors := []; st_trace := [CallNext None] |}).
Proof.
  destruct ep, req; reflexivity.
Qed.

(** C10.  Under [processRequest] and [processRequestAsync] without
    [throwErrors], a slot holds afterwards the output of its schema when it
    was parsed successfully, and the value it arrived with when its schema
    failed or when it has no schema. *)
Theorem failed_slots_keep_raw_value ep schemas options req res slot :
  is_process ep = true ->
  truthy (throwErrors (default_arg options)) = false ->
  slot_value slot (st_req (snd (middleware ep schemas options req res)))
  = match slot_outcome ep schemas req slot with
    | Some (SafeParseSuccess data) => data
    | Some (SafeParseError _) => slot_value slot req
    | None => slot_value slot req
    end.
Proof.
  intros Hk Ht.
  destruct (run_accumulate ep schemas options req res Ht) as (res' & closing & Hrun & _).
  rewrite Hrun. cbn [snd st_req]. unfold request_after. rewrite Hk.
  fold (rewritten ep schemas req). rewrite rewritten_field. unfold field_after.
  destruct (slot_outcome ep schemas req slot) as [[data|error]|]; reflexivity.
Qed.

(** ** Beyond the claims *)

(** Case analysis on how an invocation runs, rewriting it by the matching
    [run_] lemma. *)
Ltac run_cases ep schemas options req res :=
  let Hf := fresh "Hf" in
  let Ht := fresh "Ht" in
  let Hp := fresh "Hp" in
  let Hk := fresh "Hk" in
  let Hc := fresh "Hc" in
  let HP := fresh "HP" in
  let HQ := fresh "HQ" in
  let HB := fresh "HB" in
  destruct (any_failure ep schemas req) eqn:Hf;
  [ destruct (truthy (throwErrors (default_arg options))) eqn:Ht;
    [ destruct (fails ep schemas req Params) eqn:HP;
      [ rewrite ?(run_throw_params ep schemas options req res Ht HP) in *
      | destruct (fails ep schemas req Query) eqn:HQ;
        [ rewrite ?(run_throw_query ep schemas options req res Ht HP HQ) in *
        | destruct (fails ep schemas req Body) eqn:HB;
          [ rewrite ?(run_throw_body ep schemas options req res Ht HP HQ HB) in *
          | exfalso; unfold any_failure, has_failed, slots in Hf; cbn in Hf;
            rewrite HP, HQ, HB in Hf; discriminate Hf ] ] ]
    | destruct (truthy (passErrorToNext (default_arg options))) eqn:Hp;
      [ rewrite ?(run_forward ep schemas options req res Hf Ht Hp) in *
      | destruct (is_process ep) eqn:Hk;
        [ rewrite ?(run_respond_process ep schemas options req res Hk Hf Ht Hp) in *
        | destruct (custom_sendErrors (default_arg options)) eqn:Hc;
          [ rewrite ?(run_respond_custom ep schemas options req res Hk Hf Ht Hp Hc) in *
          | rewrite ?(run_respond ep schemas options req res Hf Ht Hp Hc) in * ] ] ] ]
  | rewrite ?(run_valid ep schemas options req res Hf) in * ].

(** X1.  [validateRequest] and [validateRequestAsync] never write to the
    request, whatever the schemas, the options and the outcome. *)
Theorem validate_leaves_request ep schemas options req res :
  is_process ep = false ->
  st_req (snd (middleware ep schemas options req res)) = req.
Proof.
  intros Hv. destruct ep; try discriminate Hv; clear Hv.
  - run_cases EP_validateRequest schemas options req res; try discriminate; reflexivity.
  - run_cases EP_validateRequestAsync schemas options req res; try discriminate; reflexivity.
Qed.

(** The flags and the callback, as the handlers read them, abstracted from
    the goal (they occur under the binders of the handler bodies). *)
Ltac abstract_options o :=
  generalize (truthy (throwErrors (default_arg o))),
             (truthy (passErrorToNext (default_arg o))),
             (custom_sendErrors (default_arg o)).

Ltac unfold_entry_points :=
  unfold middleware, processRequest, processRequestAsync, validateRequest,
    validateRequestAsync; cbv zeta.

(** X2.  The options matter only through the truthiness of the two flags
    and through the callback: an absent flag is a false flag, and absent
    options are empty options. *)
Theorem options_by_truthiness ep schemas (o1 o2 : option Options) req res :
  truthy (throwErrors (default_arg o1)) = truthy (throwErrors (default_arg o2)) ->
  truthy (passErrorToNext (default_arg o1)) = truthy (passErrorToNext (default_arg o2)) ->
  custom_sendErrors (default_arg o1) = custom_sendErrors (default_arg o2) ->
  middleware ep schemas o1 req res = middleware ep schemas o2 req res.
Proof.
  destruct ep; unfold_entry_points; abstract_options o1; abstract_options o2;
    intros t2 p2 c2 t1 p1 c1 Ht Hp Hc; subst; reflexivity.
Qed.

(** X3.  [processRequest] and [processRequestAsync] do not depend on the
    [sendErrors] option: two option sets with the same flags give the same
    run, whatever their callbacks. *)
Theorem process_ignores_callback ep schemas (o1 o2 : option Options) req res :
  is_process ep = true ->
  truthy (throwErrors (default_arg o1)) = truthy (throwErrors (default_arg o2)) ->
  truthy (passErrorToNext (default_arg o1)) = truthy (passErrorToNext (default_arg o2)) ->
  middleware ep schemas o1 req res = middleware ep schemas o2 req res.
Proof.
  intros Hk. destruct ep; try discriminate Hk; clear Hk;
    unfold_entry_points; abstract_options o1; abstract_options o2;
    intros t2 p2 c2 t1 p1 c1 Ht Hp; subst;
    destruct c1, c2; reflexivity.
Qed.

Lemma first_failure_cases ep schemas req :
  (exists error, fails ep schemas req Params = Some error)
  \/ (fails ep schemas req Params = None
      /\ exists error, fails ep schemas req Query = Some error)
  \/ (fails ep schemas req Params = None /\ fails ep schemas req Query = None
      /\ exists error, fails ep schemas req Body = Some error)
  \/ any_failure ep schemas req = false.
Proof.
  unfold any_failure, has_failed, slots. cbn.
  destruct (fails ep schemas req Params) as [eP|]; [left; eauto|].
  destruct (fails ep schemas req Query) as [eQ|]; [right; left; eauto|].
  destruct (fails ep schemas req Body) as [eB|]; [right; right; left; eauto|].
  right; right; right. reflexivity.
Qed.

(** X4.  How an invocation completes: with [throwErrors] and a failure,
    by raising the error class of the first item of the failed-slot list
    with that item's native error (thrown by the plain handlers, the
    rejection of the promise for the async ones); in every other case
    without an error. *)
Theorem completes_by_first_failure ep schemas options req res :
  fst (middleware ep schemas options req res)
  = match
      (if truthy (throwErrors (default_arg options))
       then hd_error (failed_slots ep schemas req) else None)
    with
    | Some item => abrupt ep (exception_of item)
    | None => normal ep
    end.
Proof.
  destruct (truthy (throwErrors (default_arg options))) eqn:Ht.
  - destruct (first_failure_cases ep schemas req)
      as [(e & HP) | [(HP & e & HQ) | [(HP & HQ & e & HB) | Hf]]].
    + rewrite (run_throw_params _ _ _ _ res Ht HP).
      unfold failed_slots, failed_among, slots. cbn. rewrite HP. reflexivity.
    + rewrite (run_throw_query _ _ _ _ res Ht HP HQ).
      unfold failed_slots, failed_among, slots. cbn. rewrite HP, HQ. reflexivity.
    + rewrite (run_throw_body _ _ _ _ res Ht HP HQ HB).
      unfold failed_slots, failed_among, slots. cbn. rewrite HP, HQ, HB. reflexivity.
    + rewrite (run_valid _ _ options _ res Hf).
      apply failed_slots_nil in Hf. rewrite Hf. reflexivity.
  - destruct (run_accumulate ep schemas options req res Ht) as (res' & closing & Hrun & _).
    rewrite Hrun. reflexivity.
Qed.

(** X5.  [throwErrors] takes precedence: with it set, neither
    [passErrorToNext] nor [sendErrors] has any effect on the run. *)
Theorem throwErrors_precedence ep schemas (o1 o2 : option Options) req res :
  truthy (throwErrors (default_arg o1)) = true ->
  truthy (throwErrors (default_arg o2)) = true ->
  middleware ep schemas o1 req res = middleware ep schemas o2 req res.
Proof.
  intros H1 H2.
  destruct (first_failure_cases ep schemas req)
    as [(e & HP) | [(HP & e & HQ) | [(HP & HQ & e & HB) | Hf]]].
  - now rewrite (run_throw_params _ _ _ _ res H1 HP), (run_throw_params _ _ _ _ res H2 HP).
  - now rewrite (run_throw_query _ _ _ _ res H1 HP HQ), (run_throw_query _ _ _ _ res H2 HP HQ).
  - now rewrite (run_throw_body _ _ _ _ res H1 HP HQ HB),
      (run_throw_body _ _ _ _ res H2 HP HQ HB).
  - now rewrite (run_valid _ _ o1 _ res Hf), (run_valid _ _ o2 _ res Hf).
Qed.

(** X6.  The response is written only on the answering path: when no slot
    fails, or [throwErrors] is set, or [passErrorToNext] is set, the
    response is left as it was, no responder is called and the accumulator
    never reaches the callback. *)
Theorem response_untouched ep schemas options req res :
  negb (any_failure ep schemas req)
  || truthy (throwErrors (default_arg options))
  || truthy (passErrorToNext (default_arg options)) = true ->
  st_res (snd (middleware ep schemas options req res)) = res
  /\ filter (@is_responder Value ZodError)
       (st_trace (snd (middleware ep schemas options req res))) = [].
Proof.
  intros H.
  run_cases ep schemas options req res; try discriminate H;
    cbn [snd st_res st_trace]; (split; [reflexivity|]);
    rewrite ?filter_app, filter_parse_calls; reflexivity.
Qed.

(** X7.  The shape of every invocation: the schemas of an initial segment
    of Params, Query, Body are evaluated, in that order, once each, on the
    fields the request arrived with; then either an error is raised and
    nothing else is called, or exactly one call follows, of the
    continuation or of a responder. *)
Theorem trace_shape ep schemas options req res :
  exists n closing,
    st_trace (snd (middleware ep schemas options req res))
    = parse_calls (firstn n slots) ep schemas req ++ closing
    /\ closing_calls (st_trace (snd (middleware ep schemas options req res))) = closing
    /\ match raised (fst (middleware ep schemas options req res)) with
       | Some _ => closing = []
       | None => exists call, closing = [call] /\ is_next call || is_responder call = true
       end.
Proof.
  assert (Hclosing : forall among closing,
            closing_calls (parse_calls among ep schemas req ++ closing)
            = closing_calls closing).
  { intros among closing. unfold closing_calls.
    rewrite filter_app, filter_parse_calls; reflexivity. }
  run_cases ep schemas options req res; cbn [fst snd st_trace].
  1: exists 1, []. 2: exists 2, []. 3: exists 3, [].
  1-3: rewrite app_nil_r; cbn [firstn slots]; split; [reflexivity|];
       split; [rewrite <- (app_nil_r (parse_calls _ _ _ _)), Hclosing; reflexivity
              | destruct ep; reflexivity].
  all: eexists 3, _; (split; [reflexivity|]); rewrite Hclosing;
       (split; [reflexivity|]); destruct ep; cbn; eexists; split; reflexivity.
Qed.

(** X8.  Under [throwErrors], [processRequest] and [processRequestAsync]
    have already rewritten the slots accepted before the failing one when
    the error is raised: the later slots are as they arrived, the earlier
    ones hold the output of their schemas. *)
Theorem throw_keeps_earlier_rewrites ep schemas options req res :
  is_process ep = true ->
  truthy (throwErrors (default_arg options)) = true ->
  fails ep schemas req Params = None ->
  (forall error,
     fails ep schemas req Query = Some error ->
     st_req (snd (middleware ep schemas options req res))
     = {| req_params := field_after ep schemas req Params;
          req_query := req_query req;
          req_body := req_body req |})
  /\ (forall error,
        fails ep schemas req Query = None ->
        fails ep schemas req Body = Some error ->
        st_req (snd (middleware ep schemas options req res))
        = {| req_params := field_after ep schemas req Params;
             req_query := field_after ep schemas req Query;
             req_body := req_body req |}).
Proof.
  intros Hk Ht HP. split.
  - intros error HQ. rewrite (run_throw_query _ _ _ _ res Ht HP HQ).
    cbn [snd st_req]. unfold request_after. rewrite Hk. reflexivity.
  - intros error HQ HB. rewrite (run_throw_body _ _ _ _ res Ht HP HQ HB).
    cbn [snd st_req]. unfold request_after. rewrite Hk. reflexivity.
Qed.

(** The runs of a validating entry point [ev] and of the processing entry
    point [ep] with the same parses, compared strategy by strategy. *)
Ltac compare_runs ev ep schemas options req res Hc :=
  let Hf := fresh "Hf" in
  let Ht := fresh "Ht" in
  let Hp := fresh "Hp" in
  destruct (first_failure_cases ev schemas req)
    as [(?e & ?HP) | [(?HP & ?e & ?HQ) | [(?HP & ?HQ & ?e & ?HB) | Hf]]];
  [ assert (Hf : any_failure ev schemas req = true)
      by (unfold any_failure, has_failed, slots; cbn; rewrite ?HP, ?HQ, ?HB; reflexivity) ..
  | rewrite (run_valid ev _ options _ res Hf), (run_valid ep _ options _ res Hf);
    now repeat split ];
  (destruct (truthy (throwErrors (default_arg options))) eqn:Ht;
   [ first
       [ rewrite (run_throw_params ev _ _ _ res Ht HP), (run_throw_params ep _ _ _ res Ht HP)
       | rewrite (run_throw_query ev _ _ _ res Ht HP HQ),
           (run_throw_query ep _ _ _ res Ht HP HQ)
       | rewrite (run_throw_body ev _ _ _ res Ht HP HQ HB),
           (run_throw_body ep _ _ _ res Ht HP HQ HB) ]
   | destruct (truthy (passErrorToNext (default_arg options))) eqn:Hp;
     [ rewrite (run_forward ev _ _ _ res Hf Ht Hp), (run_forward ep _ _ _ res Hf Ht Hp)
     | rewrite (run_respond ev _ _ _ res Hf Ht Hp Hc),
         (run_respond ep _ _ _ res Hf Ht Hp Hc) ] ]);
  now repeat split.

(** X9.  Without a [sendErrors] callback, [validateRequest] differs from
    [processRequest] only in the request it leaves: completion, response,
    accumulator and calls are the same; likewise for the async pair. *)
Theorem validate_matches_process schemas options req res :
  custom_sendErrors (default_arg options) = None ->
  (fst (validateRequest schemas options req res) = fst (processRequest schemas options req res)
   /\ st_res (snd (validateRequest schemas options req res))
      = st_res (snd (processRequest schemas options req res))
   /\ st_errors (snd (validateRequest schemas options req res))
      = st_errors (snd (processRequest schemas options req res))
   /\ st_trace (snd (validateRequest schemas options req res))
      = st_trace (snd (processRequest schemas options req res)))
  /\ (fst (validateRequestAsync schemas options req res)
      = fst (processRequestAsync schemas options req res)
      /\ st_res (snd (validateRequestAsync schemas options req res))
         = st_res (snd (processRequestAsync schemas options req res))
      /\ st_errors (snd (validateRequestAsync schemas options req res))
         = st_errors (snd (processRequestAsync schemas options req res))
      /\ st_trace (snd (validateRequestAsync schemas options req res))
         = st_trace (snd (processRequestAsync schemas options req res))).
Proof.
  intros Hc.
  change (validateRequest schemas options req res)
    with (middleware EP_validateRequest schemas options req res).
  change (validateRequestAsync schemas options req res)
    with (middleware EP_validateRequestAsync schemas options req res).
  change (processRequest schemas options req res)
    with (middleware EP_processRequest schemas options req res).
  change (processRequestAsync schemas options req res)
    with (middleware EP_processRequestAsync schemas options req res).
  split.
  - compare_runs EP_validateRequest EP_processRequest schemas options req res Hc.
  - compare_runs EP_validateRequestAsync EP_processRequestAsync schemas options req res Hc.
Qed.

Ltac unfold_singles :=
  unfold single, processRequestParams, processRequestQuery, processRequestBody,
    processRequestParamsAsync, processRequestQueryAsync, processRequestBodyAsync,
    validateRequestParams, validateRequestQuery, validateRequestBody,
    validateRequestParamsAsync, validateRequestQueryAsync, validateRequestBodyAsync in *.

(** X10.  A single-slot entry point evaluates its own schema, once, on its
    own field; it leaves the two other fields of the request as they are;
    and whatever it accumulates is typed with its slot. *)
Theorem single_slot_frame ep slot (schema : ZodSchema) options req res :
  filter (@is_parse Value ZodError) (st_trace (snd (single ep slot schema options req res)))
  = [parse_call ep slot (slot_value slot req)]
  /\ (forall other,
        slot_eqb other slot = false ->
        slot_value other (st_req (snd (single ep slot schema options req res)))
        = slot_value other req)
  /\ (forall item,
        In item (st_errors (snd (single ep slot schema options req res))) ->
        type item = slot).
Proof.
  destruct req as [vp vq vb]; destruct ep, slot;
    unfold_singles; unfold_mw; cbn;
    destruct (truthy (throwErrors (default_arg options)));
    destruct (truthy (passErrorToNext (default_arg options)));
    destruct (custom_sendErrors (default_arg options));
    split_parse;
    (split; [reflexivity|split]);
    solve [ intros [] H; try discriminate H; reflexivity
          | intros item [H|[]]; subst item; reflexivity
          | intros item [] ].
Qed.

(** X11.  On a request every slot of which is accepted, the three
    single-slot entry points applied one after the other, each to what the
    one before left, each call the continuation bare, and leave the request
    and the response that the combined entry point leaves. *)
Theorem valid_chain_matches_combined ep (p q b : ZodSchema) options req res :
  any_failure ep {| params := Some p; query := Some q; body := Some b |} req = false ->
  closing_calls (st_trace (snd (single ep Params p options req res))) = [CallNext None]
  /\ closing_calls
       (st_trace (snd (after (single ep Params p options req res)
                             (single ep Query q options)))) = [CallNext None]
  /\ closing_calls
       (st_trace (snd (after (after (single ep Params p options req res)
                                    (single ep Query q options))
                             (single ep Body b options)))) = [CallNext None]
  /\ st_req (snd (after (after (single ep Params p options req res)
                               (single ep Query q options))
                        (single ep Body b options)))
     = st_req (snd (middleware ep {| params := Some p; query := Some q; body := Some b |}
                      options req res))
  /\ st_res (snd (after (after (single ep Params p options req res)
                               (single ep Query q options))
                        (single ep Body b options)))
     = st_res (snd (middleware ep {| params := Some p; query := Some q; body := Some b |}
                      options req res)).
Proof.
  intros H. destruct req as [vp vq vb]; destruct ep;
    unfold after; unfold_singles; unfold_vocabulary; unfold closing_calls;
    cbn in *; unfold_mw; cbn in *; split_parse; try discriminate H;
    repeat split.
Qed.

(** *** Schemas that accept their own output *)

Lemma request_after_field (done : list ErrorType) ep schemas req slot :
  slot_value slot (request_after done ep schemas req)
  = if is_process ep && existsb (slot_eqb slot) done
    then field_after ep schemas req slot
    else slot_value slot req.
Proof.
  unfold request_after, rewritten_upto.
  destruct (is_process ep); [|reflexivity].
  destruct slot; reflexivity.
Qed.

Lemma field_after_accepted ep schemas req slot :
  accepts_own_output ep schemas req slot ->
  slot_outcome ep schemas req slot
  = match slot_schema slot schemas with
    | Some schema => Some (parse ep schema (field_after ep schemas req slot))
    | None => None
    end.
Proof.
  unfold accepts_own_output, field_after, slot_outcome.
  destruct (slot_schema slot schemas) as [schema|]; [|reflexivity].
  intros H. destruct (parse ep schema (slot_value slot req)) as [data|error] eqn:E.
  - now rewrite (H data eq_refl).
  - now rewrite E.
Qed.

(** Rewriting accepted slots does not change the outcome of any slot. *)
Lemma outcome_after_rewrite (done : list ErrorType) ep schemas req slot :
  accepts_own_output ep schemas req slot ->
  slot_outcome ep schemas (request_after done ep schemas req) slot
  = slot_outcome ep schemas req slot.
Proof.
  intros H. unfold slot_outcome at 1. rewrite request_after_field.
  destruct (is_process ep && existsb (slot_eqb slot) done).
  - symmetry. apply field_after_accepted. exact H.
  - reflexivity.
Qed.

Lemma fails_same_outcome ep schemas (req1 req2 : Request) :
  (forall slot, slot_outcome ep schemas req1 slot = slot_outcome ep schemas req2 slot) ->
  (forall slot, fails ep schemas req1 slot = fails ep schemas req2 slot)
  /\ failed_slots ep schemas req1 = failed_slots ep schemas req2
  /\ any_failure ep schemas req1 = any_failure ep schemas req2.
Proof.
  intros H.
  assert (Hfails : forall slot, fails ep schemas req1 slot = fails ep schemas req2 slot)
    by (intros slot; unfold fails; now rewrite H).
  split; [exact Hfails|].
  unfold failed_slots, failed_among, any_failure, has_failed, slots. cbn.
  now rewrite !Hfails.
Qed.

(** Rewriting twice is rewriting once. *)
Lemma request_after_twice (done : list ErrorType) ep schemas req :
  (forall slot, accepts_own_output ep schemas req slot) ->
  request_after done ep schemas (request_after done ep schemas req)
  = request_after done ep schemas req.
Proof.
  intros H.
  assert (Hfield : forall slot,
            slot_value slot
              (request_after done ep schemas (request_after done ep schemas req))
            = slot_value slot (request_after done ep schemas req)).
  { intros slot. rewrite request_after_field.
    destruct (is_process ep && existsb (slot_eqb slot) done) eqn:Hd; [|reflexivity].
    unfold field_after at 1. rewrite (outcome_after_rewrite done ep schemas req slot (H slot)).
    rewrite request_after_field, Hd. unfold field_after.
    destruct (slot_outcome ep schemas req slot) as [[data|error]|]; reflexivity. }
  pose proof (Hfield Params) as HP. pose proof (Hfield Query) as HQ.
  pose proof (Hfield Body) as HB. cbn in HP, HQ, HB.
  destruct (request_after done ep schemas (request_after done ep schemas req)),
    (request_after done ep schemas req). cbn in HP, HQ, HB. now subst.
Qed.

(** X12.  When every configured schema accepts again, unchanged, what it
    returned for the request, running an entry point on the request it left
    behind leaves that request as it is, ends the same way and accumulates
    the same failures. *)
Theorem rerun_is_stable ep schemas options req res res2 :
  (forall slot, accepts_own_output ep schemas req slot) ->
  fst (middleware ep schemas options
         (st_req (snd (middleware ep schemas options req res))) res2)
  = fst (middleware ep schemas options req res)
  /\ st_req (snd (middleware ep schemas options
                    (st_req (snd (middleware ep schemas options req res))) res2))
     = st_req (snd (middleware ep schemas options req res))
  /\ st_errors (snd (middleware ep schemas options
                       (st_req (snd (middleware ep schemas options req res))) res2))
     = st_errors (snd (middleware ep schemas options req res)).
Proof.
  intros H.
  assert (Hsame : forall done,
            (forall slot,
               fails ep schemas (request_after done ep schemas req) slot
               = fails ep schemas req slot)
            /\ failed_slots ep schemas (request_after done ep schemas req)
               = failed_slots ep schemas req
            /\ any_failure ep schemas (request_after done ep schemas req)
               = any_failure ep schemas req).
  { intros done. apply fails_same_outcome. intros slot.
    apply outcome_after_rewrite. apply H. }
  destruct (truthy (throwErrors (default_arg options))) eqn:Ht.
  - destruct (first_failure_cases ep schemas req)
      as [(e & HP) | [(HP & e & HQ) | [(HP & HQ & e & HB) | Hf]]].
    + rewrite (run_throw_params _ _ _ _ res Ht HP). cbn [fst snd st_req st_errors].
      rewrite (run_throw_params _ _ _ _ res2 Ht HP). now repeat split.
    + rewrite (run_throw_query _ _ _ _ res Ht HP HQ). cbn [fst snd st_req st_errors].
      destruct (Hsame [Params]) as (Hfails & _).
      rewrite <- (Hfails Params) in HP. rewrite <- (Hfails Query) in HQ.
      rewrite (run_throw_query _ _ _ _ res2 Ht HP HQ). cbn [fst snd st_req st_errors].
      rewrite (request_after_twice _ ep schemas req H). now repeat split.
    + rewrite (run_throw_body _ _ _ _ res Ht HP HQ HB). cbn [fst snd st_req st_errors].
      destruct (Hsame [Params; Query]) as (Hfails & _).
      rewrite <- (Hfails Params) in HP. rewrite <- (Hfails Query) in HQ.
      rewrite <- (Hfails Body) in HB.
      rewrite (run_throw_body _ _ _ _ res2 Ht HP HQ HB). cbn [fst snd st_req st_errors].
      rewrite (request_after_twice _ ep schemas req H). now repeat split.
    + rewrite (run_valid _ _ options _ res Hf). cbn [fst snd st_req st_errors].
      destruct (Hsame slots) as (_ & _ & Hany). rewrite <- Hany in Hf.
      rewrite (run_valid _ _ options _ res2 Hf). cbn [fst snd st_req st_errors].
      rewrite (request_after_twice _ ep schemas req H). now repeat split.
  - destruct (run_accumulate ep schemas options req res Ht) as (r1 & c1 & Hrun1 & _).
    rewrite Hrun1. cbn [fst snd st_req st_errors].
    destruct (run_accumulate ep schemas options (request_after slots ep schemas req) res2 Ht)
      as (r2 & c2 & Hrun2 & _).
    rewrite Hrun2. cbn [fst snd st_req st_errors].
    destruct (Hsame slots) as (_ & Hfailed & _).
    rewrite (request_after_twice _ ep schemas req H), Hfailed. now repeat split.
Qed.

(** X13.  [validateRequest] and [validateRequestAsync], and with them the
    handlers made by [ValidateRequest] and [ValidateRequestAsync], answer a
    failure through the [sendErrors] callback when one is given and neither
    flag is set: the callback is the only call after the parses, it gets
    the failed-slot list and the response, and what it makes of the
    response is the response left. *)
Theorem validate_calls_callback ep schemas options req res callback :
  is_process ep = false ->
  truthy (throwErrors (default_arg options)) = false ->
  truthy (passErrorToNext (default_arg options)) = false ->
  custom_sendErrors (default_arg options) = Some callback ->
  any_failure ep schemas req = true ->
  closing_calls (st_trace (snd (middleware ep schemas options req res)))
  = [CallOptionsSendErrors (failed_slots ep schemas req)]
  /\ st_res (snd (middleware ep schemas options req res))
     = callback (failed_slots ep schemas req) res
  /\ (if is_async ep then ValidateRequestAsync options schemas req res
      else ValidateRequest options schemas req res)
     = middleware ep schemas options req res.
Proof.
  intros Hk Ht Hp Hc Hf.
  assert (Hfactory : (if is_async ep then ValidateRequestAsync options schemas req res
                      else ValidateRequest options schemas req res)
                     = middleware ep schemas options req res)
    by (destruct ep; try discriminate Hk; reflexivity).
  rewrite Hfactory.
  rewrite (run_respond_custom _ _ _ _ res Hk Hf Ht Hp Hc). cbn [snd st_trace st_res].
  repeat split.
  unfold closing_calls. rewrite filter_app, filter_parse_calls; reflexivity.
Qed.

(** X14.  Whatever the options, the accumulator holds at most one item per
    slot, and only items of slots that failed, each with the native error
    of its slot. *)
Theorem accumulator_invariant ep schemas options req res :
  NoDup (map (@type ZodError) (st_errors (snd (middleware ep schemas options req res))))
  /\ (forall item,
        In item (st_errors (snd (middleware ep schemas options req res))) ->
        fails ep schemas req (type item) = Some (errors item)).
Proof.
  assert (Hslots : NoDup slots).
  { unfold slots. repeat constructor; cbn; intuition discriminate. }
  assert (Hfailed : NoDup (map (@type ZodError) (failed_slots ep schemas req))).
  { rewrite failed_slots_types. apply NoDup_filter. exact Hslots. }
  run_cases ep schemas options req res; cbn [snd st_errors];
    solve [ split; [constructor | intros item []]
          | split; [exact Hfailed | intros item; apply failed_slots_In] ].
Qed.

End Properties.

(** ** The claims on the sample values *)

Import Sample.

(** C1.  [processRequest], given a [sendErrors] callback and a failing
    body, neither throwing nor forwarding, answers through the built-in
    responder: the callback is not called and the response is the default
    400, not the one the callback would have written. *)
Theorem processRequest_bypasses_custom_sendErrors :
  any_failure EP_processRequest (only_body name_schema) bad_request_in = true
  /\ truthy (throwErrors with_custom_responder) = false
  /\ truthy (passErrorToNext with_custom_responder) = false
  /\ custom_sendErrors with_custom_responder = Some custom_responder
  /\ processRequest (only_body name_schema) (Some with_custom_responder)
       bad_request_in fresh_response
     = (Returned,
        {| st_req := bad_request_in;
           st_res := {| statusCode := 400;
                        sent := Some (ErrorsPayload [{| type := Body; errors := too_small |}]) |};
           st_errors := [{| type := Body; errors := too_small |}];
           st_trace := [CallSafeParse Body (req_body bad_request_in);
                        CallSendErrors [{| type := Body; errors := too_small |}]] |})
  /\ custom_responder [{| type := Body; errors := too_small |}] fresh_response
     = {| statusCode := 422; sent := Some (OtherPayload (JString "validation failed")) |}.
Proof.
  repeat split.
Qed.

(** The same request and options under [validateRequest]: the callback is
    called with the accumulated list and writes the response. *)
Example validateRequest_calls_custom_sendErrors :
  validateRequest (only_body name_schema) (Some with_custom_responder)
    bad_request_in fresh_response
  = (Returned,
     {| st_req := bad_request_in;
        st_res := {| statusCode := 422;
                     sent := Some (OtherPayload (JString "validation failed")) |};
        st_errors := [{| type := Body; errors := too_small |}];
        st_trace := [CallSafeParse Body (req_body bad_request_in);
                     CallOptionsSendErrors [{| type := Body; errors := too_small |}]] |}).
Proof. reflexivity. Qed.

(** C2 as stated fails for [validateRequest]: the params schema accepts
    the request and turns the string "42" into the number 42, the
    continuation is called, and the request still holds the string. *)
Lemma validateRequest_keeps_raw_input :
  any_failure EP_validateRequest (only_params id_schema) good_request = false
  /\ slot_outcome EP_validateRequest (only_params id_schema) good_request Params
     = Some (SafeParseSuccess (JObject [("id"%string, JNumber 42)]))
  /\ st_trace (snd (validateRequest (only_params id_schema) None good_request fresh_response))
     = [CallSafeParse Params (req_params good_request); CallNext None]
  /\ req_params
       (st_req (snd (validateRequest (only_params id_schema) None good_request fresh_response)))
     <> JObject [("id"%string, JNumber 42)].
Proof.
  split; [reflexivity|]. split; [reflexivity|]. split; [reflexivity|].
  cbn. discriminate.
Qed.

Lemma valid_request_proceeds_witness :
  fst (processRequest all_three None good_request fresh_response) = Returned
  /\ st_trace (snd (processRequest all_three None good_request fresh_response))
     = [CallSafeParse Params (req_params good_request);
        CallSafeParse Query (req_query good_request);
        CallSafeParse Body (req_body good_request);
        CallNext None]
  /\ st_res (snd (processRequest all_three None good_request fresh_response)) = fresh_response
  /\ req_params (st_req (snd (processRequest all_three None good_request fresh_response)))
     = JObject [("id"%string, JNumber 42)].
Proof.
  destruct (valid_request_proceeds EP_processRequest all_three None good_request
              fresh_response eq_refl) as (Hc & Ht & _ & Hr & Hp & _).
  split; [exact Hc|]. split; [exact Ht|]. split; [exact Hr|].
  exact (Hp eq_refl Params _ eq_refl).
Defined.

Lemma throwErrors_first_failure_witness :
  raised (fst (processRequest all_three (Some throwing) bad_request_in fresh_response))
  = Some (InvalidParamsError id_required)
  /\ evaluated Query
       (st_trace (snd (processRequest all_three (Some throwing) bad_request_in fresh_response)))
     = false
  /\ evaluated Body
       (st_trace (snd (processRequest all_three (Some throwing) bad_request_in fresh_response)))
     = false.
Proof.
  destruct (throwErrors_first_failure EP_processRequest all_three (Some throwing)
              bad_request_in fresh_response eq_refl) as (Hparams & _).
  exact (Hparams id_required eq_refl).
Defined.

Lemma default_failure_response_witness :
  st_res (snd (validateRequest all_three None bad_request_in fresh_response))
  = {| statusCode := 400;
       sent := Some (ErrorsPayload [{| type := Params; errors := id_required |};
                                    {| type := Body; errors := too_small |}]) |}.
Proof.
  exact (proj1 (default_failure_response EP_validateRequest all_three None bad_request_in
                  fresh_response eq_refl eq_refl eq_refl eq_refl)).
Defined.

Lemma failures_forwarded_witness :
  st_trace (snd (validateRequestAsync all_three (Some forwarding) bad_request_in fresh_response))
  = [CallSafeParseAsync Params (req_params bad_request_in);
     CallSafeParseAsync Query (req_query bad_request_in);
     CallSafeParseAsync Body (req_body bad_request_in);
     CallNext (Some [{| type := Params; errors := id_required |};
                     {| type := Body; errors := too_small |}])].
Proof.
  exact (proj1 (failures_forwarded EP_validateRequestAsync all_three (Some forwarding)
                  bad_request_in fresh_response eq_refl eq_refl eq_refl)).
Defined.

Lemma all_slots_checked_witness :
  filter (@is_parse Json Issues)
    (st_trace (snd (processRequest all_three None bad_request_in fresh_response)))
  = [CallSafeParse Params (req_params bad_request_in);
     CallSafeParse Query (req_query bad_request_in);
     CallSafeParse Body (req_body bad_request_in)]
  /\ st_errors (snd (processRequest all_three None bad_request_in fresh_response))
     = [{| type := Params; errors := id_required |}; {| type := Body; errors := too_small |}].
Proof.
  destruct (all_slots_checked EP_processRequest all_three None bad_request_in
              fresh_response eq_refl) as (Hcalls & _ & Herrors & _).
  split; [exact Hcalls | exact Herrors].
Defined.

Lemma async_matches_plain_witness :
  matches_sync (processRequest all_three (Some throwing) bad_request_in fresh_response)
               (processRequestAsync all_three (Some throwing) bad_request_in fresh_response)
  /\ matches_sync (validateRequest all_three None bad_request_in fresh_response)
                  (validateRequestAsync all_three None bad_request_in fresh_response).
Proof.
  destruct (async_matches_plain all_three (Some throwing) bad_request_in fresh_response
              eq_refl eq_refl eq_refl) as (Hprocess & _).
  destruct (async_matches_plain all_three None bad_request_in fresh_response
              eq_refl eq_refl eq_refl) as (_ & Hvalidate & _).
  split; [exact Hprocess | exact Hvalidate].
Defined.

Lemma failed_slots_keep_raw_value_witness :
  req_params (st_req (snd (processRequest all_three None bad_request_in fresh_response)))
  = req_params bad_request_in
  /\ req_query (st_req (snd (processRequest all_three None bad_request_in fresh_response)))
     = JObject [("id"%string, JNumber 7)]
  /\ req_body (st_req (snd (processRequest all_three None bad_request_in fresh_response)))
     = req_body bad_request_in.
Proof.
  split; [|split].
  - exact (failed_slots_keep_raw_value EP_processRequest all_three None bad_request_in
             fresh_response Params eq_refl eq_refl).
  - exact (failed_slots_keep_raw_value EP_processRequest all_three None bad_request_in
             fresh_response Query eq_refl eq_refl).
  - exact (failed_slots_keep_raw_value EP_processRequest all_three None bad_request_in
             fresh_response Body eq_refl eq_refl).
Defined.

(** ** The further properties on the sample values *)

Import FurtherSample.

Lemma validate_leaves_request_witness :
  st_req (snd (validateRequest all_three (Some throwing) bad_request_in fresh_response))
  = bad_request_in.
Proof.
  exact (validate_leaves_request EP_validateRequest all_three (Some throwing)
           bad_request_in fresh_response eq_refl).
Defined.

Lemma options_by_truthiness_witness :
  processRequest all_three None bad_request_in fresh_response
  = processRequest all_three (Some all_false) bad_request_in fresh_response.
Proof.
  exact (options_by_truthiness EP_processRequest all_three None (Some all_false)
           bad_request_in fresh_response eq_refl eq_refl eq_refl).
Defined.

Lemma process_ignores_callback_witness :
  processRequestAsync all_three (Some with_custom_responder) bad_request_in fresh_response
  = processRequestAsync all_three None bad_request_in fresh_response.
Proof.
  exact (process_ignores_callback EP_processRequestAsync all_three
           (Some with_custom_responder) None bad_request_in fresh_response
           eq_refl eq_refl eq_refl).
Defined.

Lemma throwErrors_precedence_witness :
  validateRequest all_three (Some throwing) bad_request_in fresh_response
  = validateRequest all_three (Some throwing_and_forwarding) bad_request_in fresh_response.
Proof.
  exact (throwErrors_precedence EP_validateRequest all_three (Some throwing)
           (Some throwing_and_forwarding) bad_request_in fresh_response eq_refl eq_refl).
Defined.

Lemma response_untouched_witness :
  st_res (snd (processRequest all_three (Some forwarding) bad_request_in fresh_response))
  = fresh_response
  /\ filter (@is_responder Json Issues)
       (st_trace (snd (processRequest all_three (Some forwarding) bad_request_in
                         fresh_response))) = [].
Proof.
  exact (response_untouched EP_processRequest all_three (Some forwarding)
           bad_request_in fresh_response eq_refl).
Defined.

Lemma throw_keeps_earlier_rewrites_witness :
  st_req (snd (processRequest all_three (Some throwing) bad_query_request fresh_response))
  = {| req_params := JObject [("id"%string, JNumber 42)];
       req_query := JObject [];
       req_body := JObject [("name"%string, JString "Ada")] |}.
Proof.
  exact (proj1 (throw_keeps_earlier_rewrites EP_processRequest all_three (Some throwing)
                  bad_query_request fresh_response eq_refl eq_refl eq_refl)
           id_required eq_refl).
Defined.

Lemma validate_matches_process_witness :
  fst (validateRequest all_three None bad_request_in fresh_response)
  = fst (processRequest all_three None bad_request_in fresh_response)
  /\ st_res (snd (validateRequest all_three None bad_request_in fresh_response))
     = st_res (snd (processRequest all_three None bad_request_in fresh_response))
  /\ st_errors (snd (validateRequest all_three None bad_request_in fresh_response))
     = st_errors (snd (processRequest all_three None bad_request_in fresh_response))
  /\ st_trace (snd (validateRequest all_three None bad_request_in fresh_response))
     = st_trace (snd (processRequest all_three None bad_request_in fresh_response)).
Proof.
  exact (proj1 (validate_matches_process all_three None bad_request_in fresh_response
                  eq_refl)).
Defined.

Lemma valid_chain_matches_combined_witness :
  st_req (snd (after (after (processRequestParams id_schema None good_request fresh_response)
                            (processRequestQuery id_schema None))
                     (processRequestBody name_schema None)))
  = st_req (snd (processRequest all_three None good_request fresh_response)).
Proof.
  destruct (valid_chain_matches_combined EP_processRequest id_schema id_schema name_schema
              None good_request fresh_response eq_refl) as (_ & _ & _ & Hreq & _).
  exact Hreq.
Defined.

Lemma sample_schemas_accept_own_output slot :
  accepts_own_output EP_processRequest all_three good_request slot.
Proof.
  destruct slot; intros data E; injection E as <-; reflexivity.
Defined.

Lemma rerun_is_stable_witness :
  st_req (snd (processRequest all_three None
                 (st_req (snd (processRequest all_three None good_request fresh_response)))
                 fresh_response))
  = st_req (snd (processRequest all_three None good_request fresh_response)).
Proof.
  destruct (rerun_is_stable EP_processRequest all_three None good_request fresh_response
              fresh_response sample_schemas_accept_own_output) as (_ & Hreq & _).
  exact Hreq.
Defined.

Lemma validate_calls_callback_witness :
  closing_calls
    (st_trace (snd (validateRequest all_three (Some with_custom_responder) bad_request_in
                      fresh_response)))
  = [CallOptionsSendErrors [{| type := Params; errors := id_required |};
                            {| type := Body; errors := too_small |}]]
  /\ st_res (snd (validateRequest all_three (Some with_custom_responder) bad_request_in
                    fresh_response))
     = {| statusCode := 422; sent := Some (OtherPayload (JString "validation failed")) |}.
Proof.
  destruct (validate_calls_callback EP_validateRequest all_three
              (Some with_custom_responder) bad_request_in fresh_response
              eq_refl eq_refl eq_refl eq_refl eq_refl) as (Hcalls & Hres & _).
  split; [exact Hcalls | exact Hres].
Defined.
